(** * Batch image resizer: a shallow embedding of [image_resizer.py]

    The development follows the class [ImageResizer]: the size arithmetic of
    [calculate_new_size] (Python integers and binary64 floats), the filter
    chain of [apply_filters] over a symbolic model of the OpenCV calls, the
    validator, and the batch driver with its shared cancellation flag. *)

From Stdlib Require Import ZArith QArith Qround Qpower Lqa.
From Stdlib Require Import List String Ascii Bool Lia Permutation.
From Stdlib Require Import Floats.SpecFloat.
Import ListNotations.
Open Scope string_scope.
Open Scope list_scope.
Open Scope Z_scope.

(** ** Python values: exceptions, numbers, binary64 arithmetic *)

Module Py.

Inductive exn :=
| ValueError (msg : string)
| OverflowError
| ZeroDivisionError
| TypeError
| CvError (fn : string)
| CallbackError.

Inductive result (A : Type) :=
| Ok (a : A)
| Raise (e : exn).
Arguments Ok {A} a.
Arguments Raise {A} e.

Definition bind {A B} (r : result A) (k : A -> result B) : result B :=
  match r with
  | Ok a => k a
  | Raise e => Raise e
  end.

(** Python's [float] is IEEE 754 binary64; the operations are the ones of the
    standard library's specification of floating-point arithmetic. *)
Definition prec : Z := 53.
Definition emax : Z := 1024.

Definition float_mul : spec_float -> spec_float -> spec_float := SFmul prec emax.
Definition float_div : spec_float -> spec_float -> spec_float := SFdiv prec emax.

(** An integer as an exact, unnormalised binary float. *)
Definition exact_of_Z (z : Z) : spec_float :=
  match z with
  | Z0 => S754_zero false
  | Zpos p => S754_finite false p 0
  | Zneg p => S754_finite true p 0
  end.

Definition is_infinite (f : spec_float) : bool :=
  match f with S754_infinity _ => true | _ => false end.

Definition is_zero (f : spec_float) : bool :=
  match f with S754_zero _ => true | _ => false end.

(** [float(z)]: the nearest double, [OverflowError] beyond the range. *)
Definition float_of_int (z : Z) : result spec_float :=
  let f := binary_normalize prec emax z 0 false in
  if is_infinite f then Raise OverflowError else Ok f.

(** [int(f)]: truncation toward zero; infinities and NaN raise. *)
Definition int_of_float (f : spec_float) : result Z :=
  match f with
  | S754_zero _ => Ok 0
  | S754_finite s m e =>
      let a := match e with
               | Zneg _ => Z.shiftr (Zpos m) (- e)
               | _ => Z.shiftl (Zpos m) e
               end in
      Ok (if s then - a else a)
  | S754_infinity _ => Raise OverflowError
  | S754_nan => Raise (ValueError "cannot convert float NaN to integer")
  end.

(** A Python number as the code receives it: [int] or [float]. *)
Inductive num :=
| PyInt (z : Z)
| PyFloat (f : spec_float).

Definition truthy (n : num) : bool :=
  match n with
  | PyInt z => negb (z =? 0)
  | PyFloat f => negb (is_zero f)
  end.

Definition to_float (n : num) : result spec_float :=
  match n with
  | PyInt z => float_of_int z
  | PyFloat f => Ok f
  end.

(** [a * b]: exact on two ints, binary64 once a float is involved. *)
Definition mul (a b : num) : result num :=
  match a, b with
  | PyInt x, PyInt y => Ok (PyInt (x * y))
  | _, _ =>
      bind (to_float a) (fun x =>
      bind (to_float b) (fun y =>
      Ok (PyFloat (float_mul x y))))
  end.

(** [a / b]: true division.  On two ints the quotient of the exact integers
    is rounded once; a zero divisor raises in every case. *)
Definition truediv (a b : num) : result num :=
  match a, b with
  | PyInt x, PyInt y =>
      if y =? 0 then Raise ZeroDivisionError
      else
        let q := float_div (exact_of_Z x) (exact_of_Z y) in
        if is_infinite q then Raise OverflowError else Ok (PyFloat q)
  | _, _ =>
      bind (to_float a) (fun x =>
      bind (to_float b) (fun y =>
      if is_zero y then Raise ZeroDivisionError
      else Ok (PyFloat (float_div x y))))
  end.

(** [int(n)] *)
Definition int (n : num) : result Z :=
  match n with
  | PyInt z => Ok z
  | PyFloat f => int_of_float f
  end.

(** The double nearest to the decimal [n / 10^k], as [float("...")] reads it. *)
Definition float_of_decimal (n : Z) (k : nat) : spec_float :=
  float_div (exact_of_Z n) (exact_of_Z (10 ^ Z.of_nat k)).

End Py.

Import Py.

Declare Scope res_scope.
Delimit Scope res_scope with res.
Notation "x <- c1 ;; c2" := (Py.bind c1 (fun x => c2))
  (at level 61, c1 at next level, right associativity) : res_scope.
Notation "' pat <- c1 ;; c2" := (Py.bind c1 (fun x => match x with pat => c2 end))
  (at level 61, pat pattern, c1 at next level, right associativity) : res_scope.
Local Open Scope res_scope.

(** ** SizeResolver: [calculate_new_size] *)

(** [if x:] on an [Optional] number: the value when it is truthy. *)
Definition truthy_int (o : option Z) : option Z :=
  match o with
  | Some z => if z =? 0 then None else Some z
  | None => None
  end.

Definition truthy_num (o : option num) : option num :=
  match o with
  | Some n => if truthy n then Some n else None
  | None => None
  end.

Definition no_policy_error : exn :=
  ValueError "Must specify width, height, or percentage".

Definition calculate_new_size (original_size : Z * Z)
    (width height : option Z) (percentage : option num) : result (Z * Z) :=
  let '(orig_width, orig_height) := original_size in
  '(new_width, new_height) <-
    match truthy_num percentage with
    | Some percentage =>
        a <- mul (PyInt orig_width) percentage ;;
        a <- truediv a (PyInt 100) ;;
        new_width <- int a ;;
        b <- mul (PyInt orig_height) percentage ;;
        b <- truediv b (PyInt 100) ;;
        new_height <- int b ;;
        Ok (new_width, new_height)
    | None =>
        match truthy_int width, truthy_int height with
        | Some width, Some height => Ok (width, height)
        | Some width, None =>
            ratio <- truediv (PyInt width) (PyInt orig_width) ;;
            c <- mul (PyInt orig_height) ratio ;;
            new_height <- int c ;;
            Ok (width, new_height)
        | None, Some height =>
            ratio <- truediv (PyInt height) (PyInt orig_height) ;;
            c <- mul (PyInt orig_width) ratio ;;
            new_width <- int c ;;
            Ok (new_width, height)
        | None, None => Raise no_policy_error
        end
    end ;;
  Ok (Z.max 1 new_width, Z.max 1 new_height).

(** ** Image buffers

    The pixel kernels belong to OpenCV.  A buffer is modelled by its numpy
    [shape], which decides whether a call is accepted, and by the term of the
    calls that produced its pixels. *)

Inductive color_code := BGR2GRAY | GRAY2BGR | BGR2HSV | HSV2BGR | BGR2LAB | LAB2BGR.

Inductive pixels :=
| Imread (file : string)
| Reloaded (p : pixels)
| Resize (dsize : Z * Z) (p : pixels)
| CvtColor (code : color_code) (p : pixels)
| GaussianBlur (ksize : Z * Z) (sigmaX : Z) (p : pixels)
| Filter2D (kernel : list (list Z)) (p : pixels)
| Canny (threshold1 threshold2 : Z) (p : pixels)
| Split (i : nat) (p : pixels)
| Add (value : num) (p : pixels)
| Clip (lo hi : Z) (p : pixels)
| Merge (b g r : pixels)
| Clahe (clipLimit : num) (tileGridSize : Z * Z) (p : pixels)
| WarpAffine (center : Z * Z) (angle : num) (dsize : Z * Z) (p : pixels)
| Flip (flipCode : Z) (p : pixels).

Record ndarray := { shape : list Z; data : pixels }.

(** ** The host and the engine's state

    [should_stop] is the flag shared with the caller's thread.  A [stop()]
    issued from that thread lands between two acquisitions of the lock:
    [pending_stop = Some n] says that it lands after [n] more acquisitions by
    the worker.  [files] is the file system as [is_file] and [imread] see it;
    [decoded] lists the paths handed to [imread], and [written] the calls of
    [imwrite] that returned, with [True] or with [False], oldest first.

    What the run cannot decide lies with the host, [env]: the largest buffer
    that can be allocated, the extensions the OpenCV build has a writer for,
    and what becomes of a file that [imwrite] is asked to write. *)

Inductive file :=
| ImageFile (a : ndarray)
| CorruptFile
| FaultyFile.

(** [Stored]: the file now holds the image and [imwrite] returns [True].
    [Refused]: the file could not be opened, nothing changes, [False].
    [Spoiled remains]: the encoder gave up after the file was opened, [remains] is
    what remains at the path (nothing, or a file that does not decode),
    [False]. *)
Inductive write_outcome :=
| Stored
| Refused
| Spoiled (remains : option file).

Record host := {
  memory : Z;
  encoders : list string;
  store : string -> ndarray -> write_outcome
}.

Record state := {
  should_stop : bool;
  pending_stop : option nat;
  files : string -> option file;
  decoded : list string;
  written : list (string * ndarray);
  env : host
}.

Definition M (A : Type) : Type := state -> result A * state.

Definition ret {A} (a : A) : M A := fun s => (Ok a, s).

Definition raise {A} (e : exn) : M A := fun s => (Raise e, s).

Definition mbind {A B} (c : M A) (k : A -> M B) : M B :=
  fun s =>
    match c s with
    | (Ok a, s') => k a s'
    | (Raise e, s') => (Raise e, s')
    end.

Definition lift {A} (r : result A) : M A := fun s => (r, s).

(** [try: body / except Exception: handler] *)
Definition try_except {A} (body : M A) (handler : exn -> M A) : M A :=
  fun s =>
    match body s with
    | (Ok a, s') => (Ok a, s')
    | (Raise e, s') => handler e s'
    end.

Declare Scope m_scope.
Delimit Scope m_scope with M.
Notation "x <- c1 ;; c2" := (mbind c1 (fun x => c2))
  (at level 61, c1 at next level, right associativity) : m_scope.
Notation "' pat <- c1 ;; c2" := (mbind c1 (fun x => match x with pat => c2 end))
  (at level 61, pat pattern, c1 at next level, right associativity) : m_scope.

Definition set_flag (flag : bool) (pending : option nat) (s : state) : state :=
  {| should_stop := flag; pending_stop := pending;
     files := files s; decoded := decoded s; written := written s; env := env s |}.

(** The caller's [stop()] takes the lock first when it is due. *)
Definition acquire (s : state) : state :=
  match pending_stop s with
  | Some O => set_flag true None s
  | Some (S n) => set_flag (should_stop s) (Some n) s
  | None => s
  end.

(** [with self.lock: ... self.should_stop ...] *)
Definition read_should_stop : M bool :=
  fun s => let s' := acquire s in (Ok (should_stop s'), s').

Definition stop_processing : M unit :=
  fun s => let s' := acquire s in (Ok tt, set_flag true (pending_stop s') s').

(** ** The OpenCV calls

    A call checks its arguments as the library does and raises on those it
    refuses; the buffer it returns has the shape the library gives it. *)

Module cv2.

Definition error (fn : string) {A} : result A := Raise (CvError fn).

Definition is_bgr (c : Z) : bool := (c =? 3) || (c =? 4).

Definition cvtColor (src : ndarray) (code : color_code) : result ndarray :=
  let out sh := Ok {| shape := sh; data := CvtColor code (data src) |} in
  match code, shape src with
  | BGR2GRAY, [h; w; c] => if is_bgr c then out [h; w] else error "cvtColor"
  | GRAY2BGR, [h; w] => out [h; w; 3]
  | GRAY2BGR, [h; w; c] => if c =? 1 then out [h; w; 3] else error "cvtColor"
  | BGR2HSV, [h; w; c] | BGR2LAB, [h; w; c] =>
      if is_bgr c then out [h; w; 3] else error "cvtColor"
  | HSV2BGR, [h; w; c] | LAB2BGR, [h; w; c] =>
      if c =? 3 then out [h; w; 3] else error "cvtColor"
  | _, _ => error "cvtColor"
  end.

Definition GaussianBlur (src : ndarray) (ksize : Z * Z) (sigmaX : Z) : result ndarray :=
  Ok {| shape := shape src; data := GaussianBlur ksize sigmaX (data src) |}.

Definition filter2D (src : ndarray) (kernel : list (list Z)) : result ndarray :=
  Ok {| shape := shape src; data := Filter2D kernel (data src) |}.

Definition Canny (image : ndarray) (threshold1 threshold2 : Z) : result ndarray :=
  let out h w := Ok {| shape := [h; w]; data := Canny threshold1 threshold2 (data image) |} in
  match shape image with
  | [h; w] => out h w
  | [h; w; c] => if c =? 1 then out h w else error "Canny"
  | _ => error "Canny"
  end.

Definition split (m : ndarray) : result (list ndarray) :=
  let plane h w i := {| shape := [h; w]; data := Split i (data m) |} in
  match shape m with
  | [h; w] => Ok [plane h w 0%nat]
  | [h; w; c] => Ok (map (plane h w) (seq 0 (Z.to_nat c)))
  | _ => error "split"
  end.

(** [add(src, value)] with a Python number.  The binding hands the number on
    as a column of four doubles, an [int] through a C [long].  A plane of
    one pixel is then taken for the scalar, and a plane of four rows and
    one column for a second array of another type: both are refused. *)
Definition add (src : ndarray) (value : num) : result ndarray :=
  let out := Ok {| shape := shape src; data := Add value (data src) |} in
  let fits_long :=
    match value with
    | PyInt z => (- 2 ^ 63 <=? z) && (z <? 2 ^ 63)
    | PyFloat _ => true
    end in
  if fits_long then
    match shape src with
    | [h; w] => if ((h =? 1) || (h =? 4)) && (w =? 1) then error "add" else out
    | _ => out
    end
  else Raise OverflowError.

Definition same_shape (a b : ndarray) : bool :=
  if list_eq_dec Z.eq_dec (shape a) (shape b) then true else false.

(** [merge((m0, m1, m2))] on three planes *)
Definition merge (mv : ndarray * ndarray * ndarray) : result ndarray :=
  let '(m0, m1, m2) := mv in
  match shape m0 with
  | [h; w] =>
      if same_shape m1 m0 && same_shape m2 m0
      then Ok {| shape := [h; w; 3]; data := Merge (data m0) (data m1) (data m2) |}
      else error "merge"
  | _ => error "merge"
  end.

(** [createCLAHE(clipLimit, tileGridSize).apply(src)]: the limit has to
    convert to a double. *)
Definition clahe_apply (clipLimit : num) (tileGridSize : Z * Z) (src : ndarray)
  : result ndarray :=
  let out := Ok {| shape := shape src; data := Clahe clipLimit tileGridSize (data src) |} in
  _ <- to_float clipLimit ;;
  match shape src with
  | [h; w] => out
  | [h; w; c] => if c =? 1 then out else error "CLAHE.apply"
  | _ => error "CLAHE.apply"
  end.

(** [warpAffine(src, getRotationMatrix2D(center, angle, 1.0), dsize)]: the
    angle has to convert to a double, and the coordinates of the source are
    kept in 16 bits. *)
Definition warpAffine (src : ndarray) (center : Z * Z) (angle : num) (dsize : Z * Z)
  : result ndarray :=
  let '(w, h) := dsize in
  let px := WarpAffine center angle dsize (data src) in
  let in_reach sh sw := (1 <=? sh) && (sh <? 32767) && (1 <=? sw) && (sw <? 32767) in
  _ <- to_float angle ;;
  if (1 <=? w) && (1 <=? h) then
    match shape src with
    | [sh; sw] =>
        if in_reach sh sw then Ok {| shape := [h; w]; data := px |}
        else error "warpAffine"
    | [sh; sw; c] =>
        if in_reach sh sw then Ok {| shape := [h; w; c]; data := px |}
        else error "warpAffine"
    | _ => error "warpAffine"
    end
  else error "warpAffine".

(** [flip(src, flipCode)]: the code is a C [int]. *)
Definition flip (src : ndarray) (flipCode : Z) : result ndarray :=
  if (- 2 ^ 31 <=? flipCode) && (flipCode <? 2 ^ 31)
  then Ok {| shape := shape src; data := Flip flipCode (data src) |}
  else error "flip".

(** [resize(src, dsize, interpolation=INTER_LANCZOS4)]: a dimension is a C
    [int], and the host has to allocate the destination, one byte for each
    channel of each pixel. *)
Definition resize (src : ndarray) (dsize : Z * Z) : M ndarray :=
  fun s =>
    let '(w, h) := dsize in
    let px := Resize dsize (data src) in
    let create (c : Z) (sh : list Z) : result ndarray :=
      if h * w * c <=? memory (env s) then Ok {| shape := sh; data := px |}
      else error "resize" in
    (if (1 <=? w) && (w <? 2 ^ 31) && (1 <=? h) && (h <? 2 ^ 31) then
       match shape src with
       | [_; _] => create 1 [h; w]
       | [_; _; c] => create c [h; w; c]
       | _ => error "resize"
       end
     else error "resize",
     s).

End cv2.

(** [np.clip(a, lo, hi)] *)
Definition np_clip (a : ndarray) (lo hi : Z) : ndarray :=
  {| shape := shape a; data := Clip lo hi (data a) |}.

(** [h, w = image.shape[:2]] *)
Definition shape_hw (image : ndarray) : result (Z * Z) :=
  match shape image with
  | h :: w :: _ => Ok (h, w)
  | _ => Raise (ValueError "not enough values to unpack")
  end.

(** [a, b, c = planes] *)
Definition unpack3 {A} (l : list A) : result (A * A * A) :=
  match l with
  | [a; b; c] => Ok (a, b, c)
  | _ => Raise (ValueError "wrong number of values to unpack")
  end.

(** The number of channels of a buffer, when its shape is an image's. *)
Definition channels (a : ndarray) : option Z :=
  match shape a with
  | [_; _] => Some 1
  | [_; _; c] => Some c
  | _ => None
  end.

(** ** FilterChain *)

Inductive FilterType :=
| GRAYSCALE | BLUR | SHARPEN | EDGE_DETECT | BRIGHTNESS | CONTRAST | ROTATE | FLIP.

Definition FilterType_value (t : FilterType) : string :=
  match t with
  | GRAYSCALE => "grayscale"
  | BLUR => "blur"
  | SHARPEN => "sharpen"
  | EDGE_DETECT => "edge_detect"
  | BRIGHTNESS => "brightness"
  | CONTRAST => "contrast"
  | ROTATE => "rotate"
  | FLIP => "flip"
  end.

(** One entry of the configuration: the dict [{'enabled': ..., 'value': ...,
    'angle': ..., 'direction': ...}], a key that is missing being [None]. *)
Record filter_params := {
  enabled : option bool;
  value : option num;
  angle : option num;
  direction : option Z
}.

(** [params.get(key, default)] *)
Definition get {A} (o : option A) (default : A) : A :=
  match o with
  | Some a => a
  | None => default
  end.

Definition apply_grayscale (image : ndarray) (kwargs : filter_params) : result ndarray :=
  cv2.cvtColor image BGR2GRAY.

Definition apply_blur (image : ndarray) (kwargs : filter_params) : result ndarray :=
  cv2.GaussianBlur image (7, 7) 0.

Definition apply_sharpen (image : ndarray) (kwargs : filter_params) : result ndarray :=
  let kernel := [[-1; -1; -1]; [-1; 9; -1]; [-1; -1; -1]] in
  cv2.filter2D image kernel.

Definition apply_edge_detect (image : ndarray) (kwargs : filter_params) : result ndarray :=
  gray <- cv2.cvtColor image BGR2GRAY ;;
  edges <- cv2.Canny gray 100 200 ;;
  cv2.cvtColor edges GRAY2BGR.

Definition apply_brightness (image : ndarray) (kwargs : filter_params) : result ndarray :=
  let value := get (value kwargs) (PyInt 30) in
  hsv <- cv2.cvtColor image BGR2HSV ;;
  planes <- cv2.split hsv ;;
  '(h, s, v) <- unpack3 planes ;;
  v <- cv2.add v value ;;
  let v := np_clip v 0 255 in
  final_hsv <- cv2.merge (h, s, v) ;;
  cv2.cvtColor final_hsv HSV2BGR.

Definition apply_contrast (image : ndarray) (kwargs : filter_params) : result ndarray :=
  let value := get (value kwargs) (PyFloat (float_of_decimal 15 1)) in
  lab <- cv2.cvtColor image BGR2LAB ;;
  planes <- cv2.split lab ;;
  '(l, a, b) <- unpack3 planes ;;
  l <- cv2.clahe_apply value (8, 8) l ;;
  final_lab <- cv2.merge (l, a, b) ;;
  cv2.cvtColor final_lab LAB2BGR.

Definition apply_rotate (image : ndarray) (kwargs : filter_params) : result ndarray :=
  let angle := get (angle kwargs) (PyInt 90) in
  '(h, w) <- shape_hw image ;;
  let center := (w / 2, h / 2) in
  cv2.warpAffine image center angle (w, h).

Definition apply_flip (image : ndarray) (kwargs : filter_params) : result ndarray :=
  let direction := get (direction kwargs) 1 in
  cv2.flip image direction.

Definition filter_fn : Type := ndarray -> filter_params -> result ndarray.

(** The dispatch table [filters] of [apply_filters]. *)
Definition filters : list (string * filter_fn) :=
  [ (FilterType_value GRAYSCALE, apply_grayscale);
    (FilterType_value BLUR, apply_blur);
    (FilterType_value SHARPEN, apply_sharpen);
    (FilterType_value EDGE_DETECT, apply_edge_detect);
    (FilterType_value BRIGHTNESS, apply_brightness);
    (FilterType_value CONTRAST, apply_contrast);
    (FilterType_value ROTATE, apply_rotate);
    (FilterType_value FLIP, apply_flip) ].

(** [d.get(key)] on a dict given by its items *)
Fixpoint dict_get {A} (d : list (string * A)) (key : string) : option A :=
  match d with
  | [] => None
  | (k, v) :: d' => if String.eqb k key then Some v else dict_get d' key
  end.

(** [filter_config] is the dict by its [items()], in insertion order. *)
Fixpoint apply_filters (image : ndarray) (filter_config : list (string * filter_params))
  : M ndarray :=
  match filter_config with
  | [] => ret image
  | (filter_name, params) :: rest =>
      if get (enabled params) false then
        match dict_get filters filter_name with
        | Some apply_func =>
            (stopped <- read_should_stop ;;
             if negb stopped then
               image <- lift (apply_func image params) ;;
               apply_filters image rest
             else apply_filters image rest)%M
        | None => apply_filters image rest
        end
      else apply_filters image rest
  end.

(** ** Paths and the resizer object *)

(** A [pathlib.Path] by its parsed parts: [name = stem + suffix]. *)
Record Path := { parent : string; stem : string; suffix : string }.

Definition name (p : Path) : string := (stem p ++ suffix p)%string.

(** [pathlib] on POSIX reads a string as a root ([""], ["/"] or ["//"], the
    last for exactly two leading slashes) and the parts between the slashes,
    empty parts and ["."] dropped. *)
Fixpoint split_sep (s : string) : list string :=
  match s with
  | EmptyString => [EmptyString]
  | String c s' =>
      if Ascii.eqb c "/" then EmptyString :: split_sep s'
      else
        match split_sep s' with
        | part :: parts => String c part :: parts
        | [] => [String c EmptyString]
        end
  end.

Definition path_root (s : string) : string :=
  match s with
  | String "/" (String "/" (String "/" _)) => "/"
  | String "/" (String "/" _) => "//"
  | String "/" _ => "/"
  | _ => ""
  end.

Definition path_parts (s : string) : list string :=
  filter (fun part => negb (String.eqb part "") && negb (String.eqb part "."))
    (split_sep s).

(** [str(Path(folder) / file_name)]: an absolute right operand replaces the
    left one, and the path without root and parts is ["."]. *)
Definition joinpath (folder file_name : string) : string :=
  let absolute := negb (String.eqb (path_root file_name) "") in
  let root := if absolute then path_root file_name else path_root folder in
  let parts :=
    if absolute then path_parts file_name
    else path_parts folder ++ path_parts file_name in
  match root, parts with
  | EmptyString, [] => "."
  | _, _ => (root ++ String.concat "/" parts)%string
  end.

Definition str (p : Path) : string := joinpath (parent p) (name p).

Definition lower_ascii (c : ascii) : ascii :=
  let n := nat_of_ascii c in
  if (65 <=? n)%nat && (n <=? 90)%nat then ascii_of_nat (n + 32) else c.

Fixpoint lower (s : string) : string :=
  match s with
  | EmptyString => EmptyString
  | String c s' => String (lower_ascii c) (lower s')
  end.

Definition valid_extensions : list string :=
  [".jpg"; ".jpeg"; ".png"; ".bmp"; ".tiff"; ".webp"].

Definition str_in (x : string) (l : list string) : bool := existsb (String.eqb x) l.

Record ImageResizer := {
  image_files : list Path;
  output_folder : string
}.

(** The keyword arguments [size_params] of [calculate_new_size]. *)
Record size_params := {
  sp_width : option Z;
  sp_height : option Z;
  sp_percentage : option num
}.

Module fs.

(** [Path.is_file()], on a file system in which every path can be examined:
    a path that is no regular file is the [None] of [files]. *)
Definition is_file (path : string) : M bool :=
  fun s => (Ok (match files s path with Some _ => true | None => false end), s).

Definition log_decode (path : string) (s : state) : state :=
  {| should_stop := should_stop s; pending_stop := pending_stop s;
     files := files s; decoded := decoded s ++ [path]; written := written s;
     env := env s |}.

(** [cv2.imread(path)]: an array, [None], or an exception. *)
Definition imread (path : string) : M (option ndarray) :=
  fun s =>
    let s' := log_decode path s in
    match files s path with
    | Some (ImageFile a) => (Ok (Some a), s')
    | Some CorruptFile | None => (Ok None, s')
    | Some FaultyFile => (Raise (CvError "imread"), s')
    end.

(** What a later [imread] decodes from a file written with [img]. *)
Definition reloaded (img : ndarray) : ndarray :=
  match shape img with
  | h :: w :: _ => {| shape := [h; w; 3]; data := Reloaded (data img) |}
  | sh => {| shape := sh; data := Reloaded (data img) |}
  end.

(** The text after the last dot of a file name. *)
Fixpoint after_last_dot (filename : string) : option string :=
  match filename with
  | EmptyString => None
  | String c rest =>
      match after_last_dot rest with
      | Some ext => Some ext
      | None => if Ascii.eqb c "." then Some rest else None
      end
  end.

Definition is_alnum (c : ascii) : bool :=
  let n := nat_of_ascii c in
  ((48 <=? n) && (n <=? 57) || (65 <=? n) && (n <=? 90) || (97 <=? n) && (n <=? 122))%nat.

Fixpoint alnum_prefix (s : string) : string :=
  match s with
  | EmptyString => EmptyString
  | String c s' => if is_alnum c then String c (alnum_prefix s') else EmptyString
  end.

(** [imwrite] picks its writer by the letters and digits that follow the last
    dot of the file name, compared without case with the extensions of the
    writers the build has. *)
Definition has_encoder (encoders : list string) (filename : string) : bool :=
  match after_last_dot filename with
  | Some ext =>
      match alnum_prefix ext with
      | EmptyString => false
      | ext => str_in (lower ext) encoders
      end
  | None => false
  end.

(** The buffers [imwrite] accepts: not empty, of 1, 3 or 4 channels. *)
Definition writable (img : ndarray) : bool :=
  match shape img with
  | [h; w] => (1 <=? h) && (1 <=? w)
  | [h; w; c] => (1 <=? h) && (1 <=? w) && ((c =? 1) || (c =? 3) || (c =? 4))
  | _ => false
  end.

(** [cv2.imwrite(filename, img)]: without a writer for the extension, or on a
    buffer it does not accept, the call raises and does nothing; otherwise
    it returns whether the file was stored. *)
Definition imwrite (filename : string) (img : ndarray) : M bool :=
  fun s =>
    if has_encoder (encoders (env s)) filename && writable img then
      let outcome := store (env s) filename img in
      (Ok (match outcome with Stored => true | _ => false end),
       {| should_stop := should_stop s; pending_stop := pending_stop s;
          files := fun p => if String.eqb p filename then
                              match outcome with
                              | Stored => Some (ImageFile (reloaded img))
                              | Refused => files s p
                              | Spoiled remains => remains
                              end
                            else files s p;
          decoded := decoded s;
          written := written s ++ [(filename, img)];
          env := env s |})
    else (Raise (CvError "imwrite"), s).

End fs.

(** ** Validator *)

(** The body of the loop of [validate_images] on one [file]. *)
Definition validate_file (file : Path) (valid invalid : list Path)
  : M (list Path * list Path) :=
  (is_f <- fs.is_file (str file) ;;
   if is_f && str_in (lower (suffix file)) valid_extensions then
     try_except
       (test_img <- fs.imread (str file) ;;
        match test_img with
        | Some _ => ret (valid ++ [file], invalid)
        | None => ret (valid, invalid ++ [file])
        end)
       (fun e => ret (valid, invalid ++ [file]))
   else ret (valid, invalid ++ [file]))%M.

Fixpoint validate_loop (todo : list Path) (valid invalid : list Path)
  : M (list Path * list Path) :=
  match todo with
  | [] => ret (valid, invalid)
  | file :: rest =>
      (' (valid, invalid) <- validate_file file valid invalid ;;
       validate_loop rest valid invalid)%M
  end.

Definition validate_images (self : ImageResizer) : M (list Path * list Path) :=
  validate_loop (image_files self) [] [].

(** ** BatchEngine *)

Definition process_image (self : ImageResizer) (image_path : Path)
    (size : size_params) (filter_config : list (string * filter_params))
    (prefix : string) : M bool :=
  try_except
    (stopped <- read_should_stop ;;
     if stopped then ret false
     else
       image <- fs.imread (str image_path) ;;
       match image with
       | None => ret false
       | Some image =>
           ' (h, w) <- lift (shape_hw image) ;;
           new_size <- lift (calculate_new_size (w, h)
                               (sp_width size) (sp_height size) (sp_percentage size)) ;;
           resized <- cv2.resize image new_size ;;
           processed <- apply_filters resized filter_config ;;
           let output_name := (prefix ++ stem image_path ++ suffix image_path)%string in
           let output_path := joinpath (output_folder self) output_name in
           _ <- fs.imwrite output_path processed ;;
           ret true
       end)%M
    (fun e => ret false).

Definition progress_callback : Type := nat -> nat -> string -> result unit.

(** [if progress_callback: progress_callback(completed, total, file_name)] *)
Definition notify (callback : option progress_callback) (completed total : nat)
    (file_name : string) : M unit :=
  match callback with
  | Some cb => lift (cb completed total file_name)
  | None => ret tt
  end.

(** The loop [for idx, image_path in enumerate(valid_files)], from index [idx]. *)
Fixpoint batch_loop (self : ImageResizer) (size : size_params)
    (filter_config : list (string * filter_params)) (callback : option progress_callback)
    (total idx : nat) (todo : list Path) (success_count : nat) (error_files : list string)
  : M (nat * list string) :=
  match todo with
  | [] => ret (success_count, error_files)
  | image_path :: rest =>
      (ok <- process_image self image_path size filter_config "" ;;
       let '(success_count, error_files) :=
         if ok then (S success_count, error_files)
         else (success_count, error_files ++ [name image_path]) in
       _ <- notify callback (idx + 1)%nat total (name image_path) ;;
       batch_loop self size filter_config callback total (S idx) rest
         success_count error_files)%M
  end.

(** Returns [(success_count, total_count, error_files)]. *)
Definition batch_resize (self : ImageResizer) (size : size_params)
    (filter_config : list (string * filter_params)) (callback : option progress_callback)
  : M (nat * nat * list string) :=
  (' (valid_files, invalid_files) <- validate_images self ;;
   match valid_files with
   | [] => ret (0%nat, 0%nat, map name invalid_files)
   | _ :: _ =>
       let total := List.length valid_files in
       ' (success_count, error_files) <-
         batch_loop self size filter_config callback total 0 valid_files 0 [] ;;
       let error_files := error_files ++ map name invalid_files in
       ret (success_count, total, error_files)
   end)%M.

(** ** The front end's configuration builder ([ui_app.py])

    [get_filter_config] reads the widget variables: the four check boxes of
    [filter_vars], in the order of that dict, the three sliders and the flip
    selector. *)

Record filter_widgets := {
  grayscale_var : bool;
  blur_var : bool;
  sharpen_var : bool;
  edge_detect_var : bool;
  brightness_var : Z;
  contrast_var : spec_float;
  rotate_var : Z;
  flip_var : string
}.

(** [self.filter_vars.items()] with each variable read *)
Definition filter_vars (ui : filter_widgets) : list (string * bool) :=
  [ (FilterType_value GRAYSCALE, grayscale_var ui);
    (FilterType_value BLUR, blur_var ui);
    (FilterType_value SHARPEN, sharpen_var ui);
    (FilterType_value EDGE_DETECT, edge_detect_var ui) ].

(** [d[key] = v]: a present key keeps its place, a new key goes last. *)
Fixpoint dict_set {A} (d : list (string * A)) (key : string) (v : A) : list (string * A) :=
  match d with
  | [] => [(key, v)]
  | (k, x) :: d' => if String.eqb k key then (k, v) :: d' else (k, x) :: dict_set d' key v
  end.

(** [x != y] on floats: true as soon as the two are unordered or differ. *)
Definition float_ne (x y : spec_float) : bool := negb (SFeqb x y).

(** The float [1.0]. *)
Definition float_one : spec_float := S754_finite false 4503599627370496 (-52).

Definition flip_map : list (string * Z) :=
  [("none", -1); ("horizontal", 1); ("vertical", 0); ("both", -1)].

Definition enabled_only : filter_params :=
  {| enabled := Some true; value := None; angle := None; direction := None |}.

(** [None] stands for the [KeyError] of [flip_map[...]] on a selector value
    that is not one of its keys. *)
Definition get_filter_config (ui : filter_widgets) : option (list (string * filter_params)) :=
  let config := [] in
  let config :=
    fold_left (fun config '(filter_name, var) =>
                 if (var : bool) then dict_set config filter_name enabled_only else config)
      (filter_vars ui) config in
  let config :=
    if negb (brightness_var ui =? 0) then
      dict_set config (FilterType_value BRIGHTNESS)
        {| enabled := Some true; value := Some (PyInt (brightness_var ui));
           angle := None; direction := None |}
    else config in
  let config :=
    if float_ne (contrast_var ui) float_one then
      dict_set config (FilterType_value CONTRAST)
        {| enabled := Some true; value := Some (PyFloat (contrast_var ui));
           angle := None; direction := None |}
    else config in
  let config :=
    if negb (rotate_var ui =? 0) then
      dict_set config (FilterType_value ROTATE)
        {| enabled := Some true; value := None;
           angle := Some (PyInt (rotate_var ui)); direction := None |}
    else config in
  if negb (String.eqb (flip_var ui) "none") then
    match dict_get flip_map (flip_var ui) with
    | Some d =>
        Some (dict_set config (FilterType_value FLIP)
                {| enabled := Some true; value := None; angle := None;
                   direction := Some d |})
    | None => None
    end
  else Some config.

(** The filters the widgets select. *)
Definition selected (ui : filter_widgets) (t : FilterType) : bool :=
  match t with
  | GRAYSCALE => grayscale_var ui
  | BLUR => blur_var ui
  | SHARPEN => sharpen_var ui
  | EDGE_DETECT => edge_detect_var ui
  | BRIGHTNESS => negb (brightness_var ui =? 0)
  | CONTRAST => float_ne (contrast_var ui) float_one
  | ROTATE => negb (rotate_var ui =? 0)
  | FLIP => negb (String.eqb (flip_var ui) "none")
  end.

(** ** Reference definitions the theorems compare the code with *)

(** The spec's validity of a path: a regular file with an allowed extension
    whose content decodes. *)
Definition loadable (fsys : string -> option file) (f : Path) : bool :=
  match fsys (str f) with
  | Some (ImageFile _) => str_in (lower (suffix f)) valid_extensions
  | _ => false
  end.

(** The files the validator hands to the decoder. *)
Definition candidate (fsys : string -> option file) (f : Path) : bool :=
  match fsys (str f) with
  | Some _ => str_in (lower (suffix f)) valid_extensions
  | None => false
  end.

Definition add_decoded (paths : list string) (s : state) : state :=
  {| should_stop := should_stop s; pending_stop := pending_stop s;
     files := files s; decoded := decoded s ++ paths; written := written s;
     env := env s |}.

(** A progress callback that returns normally on every call (or none at all). *)
Definition quiet (callback : option progress_callback) : Prop :=
  match callback with
  | Some cb => forall i total file_name, cb i total file_name = Ok tt
  | None => True
  end.

(** No sizing policy: every parameter is absent or falsy. *)
Definition no_policy (size : size_params) : Prop :=
  truthy_num (sp_percentage size) = None /\
  truthy_int (sp_width size) = None /\
  truthy_int (sp_height size) = None.

Definition filter_of_name (filter_name : string) : option FilterType :=
  dict_get (map (fun t => (FilterType_value t, t))
              [GRAYSCALE; BLUR; SHARPEN; EDGE_DETECT; BRIGHTNESS; CONTRAST; ROTATE; FLIP])
    filter_name.

Definition apply_filter (t : FilterType) : filter_fn :=
  match t with
  | GRAYSCALE => apply_grayscale
  | BLUR => apply_blur
  | SHARPEN => apply_sharpen
  | EDGE_DETECT => apply_edge_detect
  | BRIGHTNESS => apply_brightness
  | CONTRAST => apply_contrast
  | ROTATE => apply_rotate
  | FLIP => apply_flip
  end.

(** The stages a configuration switches on: its enabled entries with a known
    name, in the order the mapping yields them. *)
Fixpoint enabled_stages (filter_config : list (string * filter_params))
  : list (FilterType * filter_params) :=
  match filter_config with
  | [] => []
  | (filter_name, params) :: rest =>
      match get (enabled params) false, filter_of_name filter_name with
      | true, Some t => (t, params) :: enabled_stages rest
      | _, _ => enabled_stages rest
      end
  end.

(** Running a list of stages one after the other, each behind the
    cancellation checkpoint. *)
Fixpoint run_stages (image : ndarray) (stages : list (FilterType * filter_params))
  : M ndarray :=
  match stages with
  | [] => ret image
  | (t, params) :: rest =>
      (stopped <- read_should_stop ;;
       if negb stopped then
         image <- lift (apply_filter t image params) ;;
         run_stages image rest
       else run_stages image rest)%M
  end.

(** The canonical order of the spec. *)
Definition canonical_order : list FilterType :=
  [GRAYSCALE; BLUR; SHARPEN; EDGE_DETECT; BRIGHTNESS; CONTRAST; ROTATE; FLIP].

(** Where [process_image] writes the result of [image_path]. *)
Definition output_path (self : ImageResizer) (image_path : Path) (prefix : string) : string :=
  joinpath (output_folder self) (prefix ++ stem image_path ++ suffix image_path)%string.

(** ** Binary64 numbers as rationals *)

Definition pow2 (e : Z) : Q := Qpower 2 e.

(** The value of a finite float. *)
Definition B2Q (f : spec_float) : Q :=
  match f with
  | S754_finite s m e =>
      ((if s then - inject_Z (Zpos m) else inject_Z (Zpos m)) * pow2 e)%Q
  | _ => 0%Q
  end.

(** A mantissa with its round and sticky bits locates [y]: at [m], between
    [m] and [m + 1/2], at [m + 1/2], or between [m + 1/2] and [m + 1]. *)
Definition inbetween (y : Q) (mrs : shr_record) : Prop :=
  let m := inject_Z (shr_m mrs) in
  match shr_r mrs, shr_s mrs with
  | false, false => (y == m)%Q
  | false, true => (m < y /\ y < m + (1#2))%Q
  | true, false => (y == m + (1#2))%Q
  | true, true => (m + (1#2) < y /\ y < m + 1)%Q
  end.

(** [F] is [x] rounded to the grid of spacing [2^E], the grid of the binade
    of [x]: a normal binary64 number [M * 2^E] within half a unit in the last
    place of [x]. *)
Definition rounds (x : Q) (E : Z) (F : spec_float) : Prop :=
  exists m e M,
    F = S754_finite false m e /\
    2 ^ 52 <= Zpos m < 2 ^ 53 /\ E <= e <= E + 1 /\
    (B2Q F == inject_Z M * pow2 E)%Q /\
    2 ^ 52 <= M <= 2 ^ 53 /\
    (inject_Z M - (1#2) <= x * pow2 (- E) <= inject_Z M + (1#2))%Q /\
    (inject_Z (2 ^ 52) <= x * pow2 (- E) < inject_Z (2 ^ 53))%Q.

(** ** Concrete buffers, files and configurations used in the examples *)

Module Fixtures.

Definition on : filter_params :=
  {| enabled := Some true; value := None; angle := None; direction := None |}.

Definition off : filter_params :=
  {| enabled := Some false; value := None; angle := None; direction := None |}.

Definition bgr (h w : Z) (file_name : string) : ndarray :=
  {| shape := [h; w; 3]; data := Imread file_name |}.

Definition photo : Path := {| parent := "in"; stem := "photo"; suffix := ".png" |}.
Definition scan : Path := {| parent := "in"; stem := "scan"; suffix := ".JPG" |}.
Definition broken : Path := {| parent := "in"; stem := "broken"; suffix := ".png" |}.
Definition notes : Path := {| parent := "in"; stem := "notes"; suffix := ".txt" |}.

(** A folder with two pictures, a corrupt picture and a text file. *)
Definition disk (path : string) : option file :=
  if String.eqb path (str photo) then Some (ImageFile (bgr 49 49 (str photo)))
  else if String.eqb path (str scan) then Some (ImageFile (bgr 1080 1920 (str scan)))
  else if String.eqb path (str broken) then Some CorruptFile
  else if String.eqb path (str notes) then Some CorruptFile
  else None.

(** A host with 4 GiB for a buffer, the writers of a stock OpenCV build, and
    a disk that stores every file. *)
Definition desktop : host :=
  {| memory := 2 ^ 32;
     encoders := ["bmp"; "dib"; "jpeg"; "jpg"; "jpe"; "jp2"; "png"; "webp"; "pbm";
                  "pgm"; "ppm"; "pxm"; "pnm"; "pfm"; "sr"; "ras"; "tiff"; "tif";
                  "exr"; "hdr"; "pic"];
     store := fun _ _ => Stored |}.

Definition idle : state :=
  {| should_stop := false; pending_stop := None; files := disk;
     decoded := []; written := []; env := desktop |}.

(** The same folder on a disk that refuses every write. *)
Definition read_only : state :=
  {| should_stop := false; pending_stop := None; files := disk;
     decoded := []; written := [];
     env := {| memory := memory desktop; encoders := encoders desktop;
               store := fun _ _ => Refused |} |}.

Definition resizer : ImageResizer :=
  {| image_files := [photo; notes; scan; broken]; output_folder := "out" |}.

Definition no_size : size_params :=
  {| sp_width := None; sp_height := None; sp_percentage := None |}.

Definition half : size_params :=
  {| sp_width := None; sp_height := None; sp_percentage := Some (PyInt 50) |}.

End Fixtures.

(** The idle state with a [stop()] that lands after [n] more acquisitions
    of the lock. *)
Definition stop_lands_after (n : nat) : state :=
  {| should_stop := false; pending_stop := Some n; files := Fixtures.disk;
     decoded := []; written := []; env := Fixtures.desktop |}.

(** Widgets with grayscale and sharpen ticked, brightness at 40, contrast
    and rotation untouched, and a vertical flip. *)
Definition sample_widgets : filter_widgets :=
  {| grayscale_var := true; blur_var := false; sharpen_var := true;
     edge_detect_var := false; brightness_var := 40; contrast_var := float_one;
     rotate_var := 0; flip_var := "vertical" |}.

Import Fixtures.

(** * Theorems *)

(** ** Frame properties of the state *)

Lemma add_decoded_nil s : add_decoded [] s = s.
Proof. destruct s; unfold add_decoded; cbn. now rewrite app_nil_r. Qed.

Lemma add_decoded_app l1 l2 s : add_decoded l2 (add_decoded l1 s) = add_decoded (l1 ++ l2) s.
Proof. unfold add_decoded; cbn. now rewrite app_assoc. Qed.

Lemma acquire_frame s :
  files (acquire s) = files s /\ decoded (acquire s) = decoded s /\
  written (acquire s) = written s.
Proof. unfold acquire. destruct (pending_stop s) as [[|n]|]; cbn; auto. Qed.

Lemma acquire_stopped s : should_stop s = true -> should_stop (acquire s) = true.
Proof. unfold acquire. destruct (pending_stop s) as [[|n]|]; cbn; auto. Qed.

(** ** Validator *)

Lemma validate_file_spec f valid invalid s :
  validate_file f valid invalid s =
  (Ok (if loadable (files s) f then (valid ++ [f], invalid) else (valid, invalid ++ [f])),
   add_decoded (if candidate (files s) f then [str f] else []) s).
Proof.
  unfold validate_file, loadable, candidate, mbind, try_except, fs.is_file, fs.imread, ret.
  generalize (str_in (lower (suffix f)) valid_extensions); intros ext.
  destruct (files s (str f)) as [[a| |]|] eqn:Hf; destruct ext; cbn; rewrite ?Hf;
    try rewrite add_decoded_nil; reflexivity.
Qed.

Lemma validate_loop_spec todo : forall valid invalid s,
  validate_loop todo valid invalid s =
  (Ok (valid ++ filter (loadable (files s)) todo,
       invalid ++ filter (fun f => negb (loadable (files s) f)) todo),
   add_decoded (map str (filter (candidate (files s)) todo)) s).
Proof.
  induction todo as [|f rest IH]; intros valid invalid s; cbn.
  - now rewrite !app_nil_r, add_decoded_nil.
  - unfold mbind. rewrite validate_file_spec.
    destruct (loadable (files s) f) eqn:Hl; cbn; rewrite IH; cbn;
      rewrite add_decoded_app, <- !app_assoc; cbn;
      destruct (candidate (files s) f); reflexivity.
Qed.

Lemma filter_partition_permutation {A} (p : A -> bool) (l : list A) :
  Permutation (filter p l ++ filter (fun x => negb (p x)) l) l.
Proof.
  induction l as [|a l IH]; cbn; [constructor|].
  destruct (p a); cbn.
  - now constructor.
  - now apply Permutation_sym, Permutation_cons_app, Permutation_sym.
Qed.

Lemma validate_images_spec self s :
  validate_images self s =
  (Ok (filter (loadable (files s)) (image_files self),
       filter (fun f => negb (loadable (files s) f)) (image_files self)),
   add_decoded (map str (filter (candidate (files s)) (image_files self))) s).
Proof. unfold validate_images. now rewrite validate_loop_spec. Qed.

(** C5: [validate_images] always returns, and its two lists are a stable
    partition of the input: together they are a permutation of the input, and
    each is the input filtered by one predicate on single paths (its
    complement for the invalid list), so each keeps the input's order. *)
Theorem validate_images_stable_partition (self : ImageResizer) (s : state) :
  exists valid invalid s',
    validate_images self s = (Ok (valid, invalid), s') /\
    Permutation (valid ++ invalid) (image_files self) /\
    valid = filter (loadable (files s)) (image_files self) /\
    invalid = filter (fun f => negb (loadable (files s) f)) (image_files self).
Proof.
  rewrite validate_images_spec.
  eexists _, _, _. split; [reflexivity|].
  split; [apply filter_partition_permutation|]. split; reflexivity.
Qed.

(** ** FilterChain *)

Lemma dispatch_table filter_name :
  dict_get filters filter_name = option_map apply_filter (filter_of_name filter_name).
Proof.
  unfold filters, filter_of_name; cbn [dict_get map].
  repeat (destruct (String.eqb _ filter_name); [reflexivity|]).
  reflexivity.
Qed.

(** C1 (as amended): [apply_filters] runs the stages of the enabled, known
    entries in the order the configuration mapping yields them, each behind
    the cancellation checkpoint; the order of the dispatch table plays no
    role. *)
Theorem apply_filters_insertion_order
    (filter_config : list (string * filter_params)) (image : ndarray) (s : state) :
  apply_filters image filter_config s = run_stages image (enabled_stages filter_config) s.
Proof.
  revert image s.
  induction filter_config as [|[filter_name params] rest IH]; intros image s;
    [reflexivity|].
  cbn [apply_filters enabled_stages]. rewrite dispatch_table.
  destruct (get (enabled params) false); [|apply IH].
  destruct (filter_of_name filter_name) as [t|]; cbn [option_map]; [|apply IH].
  cbn [run_stages]. unfold mbind.
  destruct (read_should_stop s) as [[stopped|e] s1]; [|reflexivity].
  destruct (negb stopped); [|apply IH].
  destruct (lift (apply_filter t image params) s1) as [[image'|e] s2]; [apply IH|reflexivity].
Qed.

(** C1 (as stated) fails: the same two enabled entries in the two insertion
    orders.  Grayscale first hands edge detection a single-channel buffer,
    which its colour conversion rejects; edge detection first succeeds. *)
Lemma apply_filters_order_counterexample :
  let gray_first := [("grayscale", on); ("edge_detect", on)] in
  let edge_first := [("edge_detect", on); ("grayscale", on)] in
  Permutation gray_first edge_first /\
  fst (apply_filters (bgr 4 6 "a.png") gray_first idle) = Raise (CvError "cvtColor") /\
  fst (apply_filters (bgr 4 6 "a.png") edge_first idle) =
    Ok {| shape := [4; 6];
          data := CvtColor BGR2GRAY
                    (CvtColor GRAY2BGR (Canny 100 200 (CvtColor BGR2GRAY (Imread "a.png")))) |} /\
  fst (apply_filters (bgr 4 6 "a.png") gray_first idle) <>
  fst (apply_filters (bgr 4 6 "a.png") edge_first idle).
Proof.
  cbv zeta. split; [apply perm_swap|]. split; [reflexivity|]. split; [reflexivity|].
  discriminate.
Qed.

(** C6: a configuration whose entries are all disabled (the flag false or
    missing) returns the buffer as it is, and reads no flag. *)
Theorem apply_filters_all_disabled
    (filter_config : list (string * filter_params)) (image : ndarray) (s : state) :
  Forall (fun entry => get (enabled (snd entry)) false = false) filter_config ->
  apply_filters image filter_config s = (Ok image, s).
Proof.
  induction 1 as [|[filter_name params] rest Hoff _ IH]; [reflexivity|].
  cbn in Hoff. cbn [apply_filters]. now rewrite Hoff.
Qed.

Lemma apply_filters_all_disabled_witness :
  let filter_config :=
    [("blur", off); ("rotate", {| enabled := None; value := None;
                                   angle := Some (PyInt 45); direction := None |})] in
  Forall (fun entry => get (enabled (snd entry)) false = false) filter_config /\
  apply_filters (bgr 4 6 "a.png") filter_config idle = (Ok (bgr 4 6 "a.png"), idle).
Proof.
  cbv zeta. split.
  - repeat constructor.
  - apply apply_filters_all_disabled. repeat constructor.
Defined.

(** C8 (as stated) fails: on a 3-channel buffer the grayscale stage returns a
    2-dimensional, single-channel buffer. *)
Lemma apply_grayscale_channels_counterexample :
  channels (bgr 2 2 "a.png") = Some 3 /\
  exists out, apply_grayscale (bgr 2 2 "a.png") on = Ok out /\
              shape out = [2; 2] /\ channels out = Some 1 /\
              channels out <> channels (bgr 2 2 "a.png").
Proof.
  split; [reflexivity|]. eexists. split; [reflexivity|].
  split; [reflexivity|]. split; [reflexivity|]. discriminate.
Qed.

(** C8 (as amended): on every buffer of 3 or 4 channels the grayscale stage is
    the one colour conversion to luminance; the buffer it returns keeps the
    height and width and has a single channel (it is not re-expanded). *)
Theorem apply_grayscale_single_channel
    (image : ndarray) (kwargs : filter_params) (h w c : Z) :
  shape image = [h; w; c] -> c = 3 \/ c = 4 ->
  exists out, apply_grayscale image kwargs = Ok out /\
              shape out = [h; w] /\ channels out = Some 1 /\
              data out = CvtColor BGR2GRAY (data image).
Proof.
  intros Hs Hc. unfold apply_grayscale, cv2.cvtColor. rewrite Hs.
  assert (cv2.is_bgr c = true) as -> by (destruct Hc; subst; reflexivity).
  eexists. repeat split.
Qed.

Lemma apply_grayscale_single_channel_witness :
  exists out, apply_grayscale (bgr 1080 1920 "a.png") on = Ok out /\
              shape out = [1080; 1920] /\ channels out = Some 1 /\
              data out = CvtColor BGR2GRAY (data (bgr 1080 1920 "a.png")).
Proof.
  apply (apply_grayscale_single_channel (bgr 1080 1920 "a.png") on 1080 1920 3).
  - reflexivity.
  - left; reflexivity.
Defined.

(** ** SizeResolver: the branch taken *)

Lemma calculate_new_size_no_policy original_size width height percentage :
  truthy_num percentage = None -> truthy_int width = None -> truthy_int height = None ->
  calculate_new_size original_size width height percentage = Raise no_policy_error.
Proof.
  intros Hp Hw Hh. destruct original_size as [orig_width orig_height].
  unfold calculate_new_size. now rewrite Hp, Hw, Hh.
Qed.


(** ** BatchEngine: one file *)

Lemma apply_filters_frame filter_config : forall image s,
  files (snd (apply_filters image filter_config s)) = files s /\
  decoded (snd (apply_filters image filter_config s)) = decoded s /\
  written (snd (apply_filters image filter_config s)) = written s /\
  (should_stop s = true -> should_stop (snd (apply_filters image filter_config s)) = true).
Proof.
  induction filter_config as [|[filter_name params] rest IH]; intros image s; cbn [apply_filters].
  - cbn; auto.
  - destruct (get (enabled params) false); [|apply IH].
    destruct (dict_get filters filter_name) as [apply_func|]; [|apply IH].
    unfold mbind, read_should_stop, lift.
    destruct (acquire_frame s) as (Hf & Hd & Hw).
    pose proof (acquire_stopped s) as Hs.
    destruct (negb (should_stop (acquire s))).
    + destruct (apply_func image params) as [image'|e].
      * destruct (IH image' (acquire s)) as (Hf' & Hd' & Hw' & Hs').
        rewrite Hf', Hd', Hw', Hf, Hd, Hw; auto 6.
      * cbn; auto 6.
    + destruct (IH image (acquire s)) as (Hf' & Hd' & Hw' & Hs').
      rewrite Hf', Hd', Hw', Hf, Hd, Hw; auto 6.
Qed.

Lemma process_image_total self image_path size filter_config prefix s :
  exists ok s', process_image self image_path size filter_config prefix s = (Ok ok, s').
Proof.
  unfold process_image, try_except.
  match goal with
  | |- exists ok s', match ?body with _ => _ end = _ => destruct body as [[ok|e] s']
  end; unfold ret; eauto.
Qed.

Lemma process_image_stopped self image_path size filter_config prefix s :
  should_stop s = true ->
  process_image self image_path size filter_config prefix s = (Ok false, acquire s).
Proof.
  intros Hs. unfold process_image, try_except, mbind, read_should_stop.
  now rewrite (acquire_stopped s Hs).
Qed.

(** A file whose size cannot be resolved is given up without a write, after
    it has been decoded unless the flag was found set. *)
Lemma process_image_no_policy self image_path size filter_config prefix s :
  no_policy size ->
  exists s', process_image self image_path size filter_config prefix s = (Ok false, s') /\
             written s' = written s /\ files s' = files s /\
             (decoded s' = decoded s \/ decoded s' = decoded s ++ [str image_path]).
Proof.
  intros (Hp & Hw & Hh).
  unfold process_image, try_except, mbind, read_should_stop, fs.imread, lift, ret.
  destruct (acquire_frame s) as (Hf & Hd & Hwr).
  destruct (should_stop (acquire s)).
  { eexists; split; [reflexivity|]. rewrite Hwr, Hd, Hf. auto. }
  destruct (files (acquire s) (str image_path)) as [[image| |]|];
    try (eexists; split; [reflexivity|]; cbn; rewrite Hwr, Hd, Hf; auto).
  destruct (shape_hw image) as [[h w]|e];
    [|eexists; split; [reflexivity|]; cbn; rewrite Hwr, Hd, Hf; auto].
  rewrite (calculate_new_size_no_policy _ _ _ _ Hp Hw Hh).
  eexists; split; [reflexivity|]; cbn; rewrite Hwr, Hd, Hf; auto.
Qed.

(** ** BatchEngine: the loop *)

Section BatchLoop.

Variable self : ImageResizer.
Variable size : size_params.
Variable filter_config : list (string * filter_params).
Variable callback : option progress_callback.
Variable total : nat.

Lemma notify_quiet completed file_name s :
  quiet callback -> notify callback completed total file_name s = (Ok tt, s).
Proof.
  unfold quiet, notify. destruct callback as [cb|]; intros Hq; [|reflexivity].
  unfold lift. now rewrite Hq.
Qed.

Lemma notify_frame completed file_name s :
  snd (notify callback completed total file_name s) = s.
Proof. unfold notify. destruct callback; reflexivity. Qed.

(** Every file of the loop is counted once: as a success or by name. *)
Lemma batch_loop_accounts todo : forall idx success_count error_files s out s',
  batch_loop self size filter_config callback total idx todo success_count error_files s
    = (Ok out, s') ->
  exists oks fails,
    Permutation (oks ++ fails) todo /\
    fst out = (success_count + List.length oks)%nat /\
    snd out = error_files ++ map name fails.
Proof.
  induction todo as [|image_path rest IH]; intros idx sc ef s out s' Hrun.
  - cbn in Hrun. injection Hrun as <- _. exists [], []. cbn.
    rewrite Nat.add_0_r, app_nil_r. auto.
  - cbn [batch_loop] in Hrun. unfold mbind in Hrun.
    destruct (process_image_total self image_path size filter_config "" s)
      as (ok & s1 & Hok).
    rewrite Hok in Hrun.
    destruct ok.
    + destruct (notify callback (idx + 1)%nat total (name image_path) s1) as [[[]|e] s2];
        [|discriminate].
      apply IH in Hrun as (oks & fails & Hperm & Hsc & Hef).
      exists (image_path :: oks), fails. cbn. split; [now constructor|].
      split; [lia|assumption].
    + destruct (notify callback (idx + 1)%nat total (name image_path) s1) as [[[]|e] s2];
        [|discriminate].
      apply IH in Hrun as (oks & fails & Hperm & Hsc & Hef).
      exists oks, (image_path :: fails). split; [now apply Permutation_sym, Permutation_cons_app, Permutation_sym|].
      split; [assumption|]. rewrite Hef, <- app_assoc. reflexivity.
Qed.

(** With a callback that returns, the loop returns. *)
Lemma batch_loop_returns todo : forall idx success_count error_files s,
  quiet callback ->
  exists out s',
    batch_loop self size filter_config callback total idx todo success_count error_files s
      = (Ok out, s').
Proof.
  induction todo as [|image_path rest IH]; intros idx sc ef s Hq.
  - cbn. unfold ret. eauto.
  - cbn [batch_loop]. unfold mbind.
    destruct (process_image_total self image_path size filter_config "" s)
      as (ok & s1 & ->).
    destruct ok; rewrite notify_quiet by assumption; apply IH; assumption.
Qed.

(** When every file fails from every state that satisfies [Inv], without a
    write, the loop writes nothing and names every file. *)
Lemma batch_loop_all_fail (Inv : state -> Prop) :
  (forall image_path s, Inv s ->
     exists s', process_image self image_path size filter_config "" s = (Ok false, s') /\
                Inv s' /\ written s' = written s /\ incl (decoded s) (decoded s')) ->
  forall todo idx success_count error_files s,
    Inv s ->
    let run := batch_loop self size filter_config callback total idx todo
                 success_count error_files s in
    written (snd run) = written s /\
    incl (decoded s) (decoded (snd run)) /\
    (forall out, fst run = Ok out ->
                 out = (success_count, error_files ++ map name todo)) /\
    (quiet callback -> fst run = Ok (success_count, error_files ++ map name todo)).
Proof.
  intros Hstep. induction todo as [|image_path rest IH]; intros idx sc ef s Hinv; cbv zeta.
  - cbn. rewrite app_nil_r. repeat split; auto using incl_refl. now intros out [= <-].
  - cbn [batch_loop]. unfold mbind.
    destruct (Hstep image_path s Hinv) as (s1 & -> & Hinv1 & Hw1 & Hd1).
    pose proof (notify_frame (idx + 1)%nat (name image_path) s1) as Hcb.
    pose proof (notify_quiet (idx + 1)%nat (name image_path) s1) as Hcq.
    destruct (notify callback (idx + 1)%nat total (name image_path) s1) as [[[]|e] s2];
      cbn in Hcb; subst s2.
    + specialize (IH (S idx) sc (ef ++ [name image_path]) s1 Hinv1).
      cbv zeta in IH. destruct IH as (Hw & Hd & Hout & Hquiet).
      cbn [map]. replace (ef ++ name image_path :: map name rest)
        with ((ef ++ [name image_path]) ++ map name rest) by now rewrite <- app_assoc.
      split; [congruence|]. split; [eapply incl_tran; eassumption|]. auto.
    + cbn. split; [assumption|]. split; [assumption|]. split; [discriminate|].
      intros Hq. specialize (Hcq Hq). discriminate.
Qed.

End BatchLoop.

(** ** BatchEngine: the batch *)

Lemma loadable_candidate fsys f : loadable fsys f = true -> candidate fsys f = true.
Proof.
  unfold loadable, candidate. destruct (fsys (str f)) as [[a| |]|]; auto; discriminate.
Qed.

Lemma valid_files_decoded fsys l :
  incl (map str (filter (loadable fsys) l)) (map str (filter (candidate fsys) l)).
Proof.
  apply incl_map. intros f Hin. apply filter_In in Hin as [Hin Hl].
  apply filter_In. auto using loadable_candidate.
Qed.

(** The outcome of a batch in which no valid file can succeed. *)
Lemma batch_resize_all_fail self size filter_config callback (Inv : state -> Prop) s :
  (forall image_path s, Inv s ->
     exists s', process_image self image_path size filter_config "" s = (Ok false, s') /\
                Inv s' /\ written s' = written s /\ incl (decoded s) (decoded s')) ->
  (forall l, Inv (add_decoded l s)) ->
  let valid := filter (loadable (files s)) (image_files self) in
  let invalid := filter (fun f => negb (loadable (files s) f)) (image_files self) in
  let run := batch_resize self size filter_config callback s in
  let outcome := (0%nat, List.length valid, map name valid ++ map name invalid) in
  written (snd run) = written s /\
  incl (map str valid) (decoded (snd run)) /\
  (forall out, fst run = Ok out -> out = outcome) /\
  (quiet callback -> fst run = Ok outcome).
Proof.
  intros Hstep Hinv. cbv zeta. unfold batch_resize, mbind.
  rewrite validate_images_spec.
  set (s1 := add_decoded _ s).
  assert (incl (map str (filter (loadable (files s)) (image_files self))) (decoded s1))
    as Hdec by (cbn; apply incl_appr, valid_files_decoded).
  destruct (filter (loadable (files s)) (image_files self)) as [|f valid] eqn:Hvalid.
  - cbn. repeat split; auto. now intros out [= <-].
  - set (todo := f :: valid) in *.
    destruct (batch_loop_all_fail self size filter_config callback (List.length todo)
                Inv Hstep todo 0%nat 0%nat [] s1 (Hinv _)) as (Hw & Hd & Hout & Hquiet).
    destruct (batch_loop self size filter_config callback (List.length todo) 0 todo 0 [] s1)
      as [[[sc ef]|e] s2]; cbn in *.
    + specialize (Hout _ eq_refl). injection Hout as -> ->.
      split; [assumption|]. split; [eapply incl_tran; eassumption|].
      split; [now intros out [= <-]|reflexivity].
    + split; [assumption|]. split; [eapply incl_tran; eassumption|].
      split; [discriminate|]. intros Hq. specialize (Hquiet Hq). discriminate.
Qed.

(** C2 (as stated) fails: with no sizing parameter at all the batch returns
    an outcome instead of raising, after three files have been decoded for
    validation and two of them once more for processing. *)
Lemma batch_resize_no_policy_counterexample :
  fst (batch_resize resizer no_size [] None idle)
    = Ok (0%nat, 2%nat, ["photo.png"; "scan.JPG"; "notes.txt"; "broken.png"]) /\
  decoded (snd (batch_resize resizer no_size [] None idle))
    = ["in/photo.png"; "in/scan.JPG"; "in/broken.png"; "in/photo.png"; "in/scan.JPG"].
Proof. split; reflexivity. Qed.

(** Without a sizing policy the loop writes nothing, decodes none but files of
    its list, and names every file of the list. *)
Lemma batch_loop_no_policy self size filter_config callback total :
  no_policy size ->
  forall todo idx success_count error_files s,
    let run := batch_loop self size filter_config callback total idx todo
                 success_count error_files s in
    written (snd run) = written s /\ files (snd run) = files s /\
    (exists again, decoded (snd run) = decoded s ++ again /\ incl again (map str todo)) /\
    (forall out, fst run = Ok out ->
                 out = (success_count, error_files ++ map name todo)) /\
    (quiet callback -> fst run = Ok (success_count, error_files ++ map name todo)).
Proof.
  intros Hno. induction todo as [|image_path rest IH]; intros idx sc ef s; cbv zeta.
  - cbn. rewrite app_nil_r. repeat split; auto.
    + exists []. rewrite app_nil_r. split; [reflexivity|apply incl_nil_l].
    + now intros out [= <-].
  - cbn [batch_loop]. unfold mbind.
    destruct (process_image_no_policy self image_path size filter_config "" s Hno)
      as (s1 & -> & Hw1 & Hf1 & Hd1).
    pose proof (notify_frame callback total (idx + 1)%nat (name image_path) s1) as Hcb.
    pose proof (notify_quiet callback total (idx + 1)%nat (name image_path) s1) as Hcq.
    assert (exists first, decoded s1 = decoded s ++ first /\
                          incl first (map str (image_path :: rest))) as (first & Hfirst & Hin).
    { destruct Hd1 as [Hd1|Hd1].
      - exists []. rewrite app_nil_r. split; [exact Hd1|apply incl_nil_l].
      - exists [str image_path]. split; [exact Hd1|].
        intros x [<-|[]]. left. reflexivity. }
    destruct (notify callback (idx + 1)%nat total (name image_path) s1) as [[[]|e] s2];
      cbn in Hcb; subst s2.
    + specialize (IH (S idx) sc (ef ++ [name image_path]) s1).
      cbv zeta in IH. destruct IH as (Hw & Hf & (again & Hd & Hagain) & Hout & Hquiet).
      cbn [map]. replace (ef ++ name image_path :: map name rest)
        with ((ef ++ [name image_path]) ++ map name rest) by now rewrite <- app_assoc.
      split; [congruence|]. split; [congruence|]. split; [|auto].
      exists (first ++ again). rewrite Hd, Hfirst, app_assoc. split; [reflexivity|].
      apply incl_app; [exact Hin|]. apply incl_tl. exact Hagain.
    + cbn. split; [assumption|]. split; [assumption|]. split; [eauto|].
      split; [discriminate|]. intros Hq. specialize (Hcq Hq). discriminate.
Qed.

(** C2 (as amended): without a sizing policy the error raised by
    [calculate_new_size] is absorbed per file.  In a run whose validation has
    returned, every candidate file has been decoded for validation, whatever
    is decoded after that is a valid file, nothing is written and no file is
    changed.  The outcome the batch returns counts no success and names every
    valid file, then every invalid one; the batch does return it when the
    progress callback returns normally. *)
Theorem batch_resize_no_policy_absorbed
    (self : ImageResizer) (size : size_params)
    (filter_config : list (string * filter_params))
    (callback : option progress_callback) (s s1 : state) (valid invalid : list Path) :
  no_policy size ->
  validate_images self s = (Ok (valid, invalid), s1) ->
  let run := batch_resize self size filter_config callback s in
  let outcome := (0%nat, List.length valid, map name valid ++ map name invalid) in
  let candidates := filter (candidate (files s)) (image_files self) in
  written (snd run) = written s /\ files (snd run) = files s /\
  (exists again,
      decoded (snd run) = decoded s ++ map str candidates ++ again /\
      incl again (map str valid)) /\
  (forall out, fst run = Ok out -> out = outcome) /\
  (quiet callback -> fst run = Ok outcome).
Proof.
  intros Hno Hvalidate. cbv zeta. unfold batch_resize, mbind. rewrite Hvalidate.
  rewrite validate_images_spec in Hvalidate. injection Hvalidate as <- <- <-.
  set (valid := filter (loadable (files s)) (image_files self)).
  set (invalid := filter (fun f => negb (loadable (files s) f)) (image_files self)).
  set (candidates := filter (candidate (files s)) (image_files self)).
  set (s1 := add_decoded (map str candidates) s).
  destruct valid as [|f rest] eqn:Hvalid.
  - cbn. repeat split; auto.
    + exists []. rewrite app_nil_r. split; [reflexivity|apply incl_nil_l].
    + now intros out [= <-].
  - set (todo := f :: rest) in *.
    destruct (batch_loop_no_policy self size filter_config callback (List.length todo)
                Hno todo 0%nat 0%nat [] s1) as (Hw & Hf & (again & Hd & Hagain) & Hout & Hquiet).
    destruct (batch_loop self size filter_config callback (List.length todo) 0 todo 0 [] s1)
      as [[[sc ef]|e] s2]; cbn [fst snd] in *.
    + specialize (Hout _ eq_refl). injection Hout as -> ->.
      unfold ret. cbn [fst snd].
      split; [exact Hw|]. split; [exact Hf|].
      split; [exists again; rewrite Hd; cbn; rewrite <- app_assoc; auto|].
      split; [now intros out [= <-]|reflexivity].
    + split; [exact Hw|]. split; [exact Hf|].
      split; [exists again; rewrite Hd; cbn; rewrite <- app_assoc; auto|].
      split; [discriminate|]. intros Hq. specialize (Hquiet Hq). discriminate.
Qed.

Lemma batch_resize_no_policy_absorbed_witness :
  let run := batch_resize resizer no_size [("blur", on)] None idle in
  let outcome := (0%nat, 2%nat, map name [photo; scan] ++ map name [notes; broken]) in
  written (snd run) = written idle /\ files (snd run) = files idle /\
  (exists again,
      decoded (snd run) = decoded idle ++ map str [photo; scan; broken] ++ again /\
      incl again (map str [photo; scan])) /\
  (forall out, fst run = Ok out -> out = outcome) /\
  (quiet None -> fst run = Ok outcome).
Proof.
  apply (batch_resize_no_policy_absorbed resizer no_size [("blur", on)] None idle
           (snd (validate_images resizer idle)) [photo; scan] [notes; broken]).
  - repeat split.
  - reflexivity.
Defined.

Lemma stop_processing_sets_flag s :
  should_stop (snd (stop_processing s)) = true /\
  files (snd (stop_processing s)) = files s /\
  decoded (snd (stop_processing s)) = decoded s /\
  written (snd (stop_processing s)) = written s.
Proof.
  unfold stop_processing; cbn. destruct (acquire_frame s) as (Hf & Hd & Hw). auto.
Qed.

(** C7: after [stop()], a batch run writes no file, and the outcome it returns
    has success count zero and names every valid file as failed (followed by
    the invalid ones); it does return when the progress callback does. *)
Theorem stop_before_batch_resize
    (self : ImageResizer) (size : size_params)
    (filter_config : list (string * filter_params))
    (callback : option progress_callback) (s0 : state) :
  let s := snd (stop_processing s0) in
  exists valid invalid s1,
    validate_images self s = (Ok (valid, invalid), s1) /\
    let run := batch_resize self size filter_config callback s in
    let outcome := (0%nat, List.length valid, map name valid ++ map name invalid) in
    written (snd run) = written s0 /\
    (forall out, fst run = Ok out -> out = outcome) /\
    (quiet callback -> fst run = Ok outcome).
Proof.
  cbv zeta. destruct (stop_processing_sets_flag s0) as (Hs & _ & _ & Hw).
  set (s := snd (stop_processing s0)) in *.
  rewrite validate_images_spec. eexists _, _, _. split; [reflexivity|].
  destruct (batch_resize_all_fail self size filter_config callback
              (fun s => should_stop s = true) s) as (Hwr & _ & Hout & Hquiet).
  - intros image_path s' Hstop. exists (acquire s').
    rewrite (process_image_stopped _ _ _ _ _ _ Hstop).
    destruct (acquire_frame s') as (_ & Hd' & Hw').
    split; [reflexivity|]. split; [now apply acquire_stopped|].
    split; [assumption|]. rewrite Hd'. apply incl_refl.
  - intros l. exact Hs.
  - rewrite <- Hw. auto.
Qed.

Lemma stop_before_batch_resize_witness :
  let s := snd (stop_processing idle) in
  exists valid invalid s1,
    validate_images resizer s = (Ok (valid, invalid), s1) /\
    let run := batch_resize resizer half [("blur", on)] None s in
    let outcome := (0%nat, List.length valid, map name valid ++ map name invalid) in
    written (snd run) = written idle /\
    (forall out, fst run = Ok out -> out = outcome) /\
    (quiet None -> fst run = Ok outcome).
Proof. exact (stop_before_batch_resize resizer half [("blur", on)] None idle). Defined.

(** C9: in the outcome a batch run returns, the success count and the failed
    names together number the input files, the total is the number of valid
    files, and the valid files split into the successes that were counted and
    the failures that were named, the invalid files being named after them. *)
Theorem batch_resize_accounts
    (self : ImageResizer) (size : size_params)
    (filter_config : list (string * filter_params))
    (callback : option progress_callback) (s s' : state)
    (success_count total : nat) (error_files : list string) :
  batch_resize self size filter_config callback s
    = (Ok (success_count, total, error_files), s') ->
  exists valid invalid s1,
    validate_images self s = (Ok (valid, invalid), s1) /\
    (success_count + List.length error_files = List.length (image_files self))%nat /\
    total = List.length valid /\
    exists oks fails,
      Permutation (oks ++ fails) valid /\
      success_count = List.length oks /\
      error_files = map name fails ++ map name invalid.
Proof.
  unfold batch_resize, mbind. rewrite validate_images_spec.
  set (valid := filter (loadable (files s)) (image_files self)).
  set (invalid := filter (fun f => negb (loadable (files s) f)) (image_files self)).
  set (s1 := add_decoded _ s).
  pose proof (Permutation_length
                (filter_partition_permutation (loadable (files s)) (image_files self)))
    as Hlen.
  fold valid invalid in Hlen. rewrite length_app in Hlen.
  intros Hrun. exists valid, invalid, s1. split; [reflexivity|].
  destruct valid as [|f rest] eqn:Hvalid.
  - cbn in Hrun. injection Hrun as <- <- <- _.
    rewrite length_map. split; [exact Hlen|]. split; [reflexivity|].
    exists [], []. auto.
  - destruct (batch_loop self size filter_config callback (List.length (f :: rest)) 0
                (f :: rest) 0 [] s1) as [[[sc ef]|e] s2] eqn:Hloop; [|discriminate].
    cbn in Hrun. injection Hrun as <- <- <- _.
    apply batch_loop_accounts in Hloop as (oks & fails & Hperm & Hsc & Hef).
    cbn [fst snd] in Hsc, Hef. cbn [app] in Hef. subst sc ef.
    split.
    + apply Permutation_length in Hperm. rewrite length_app in Hperm.
      rewrite length_app, !length_map. cbn [List.length] in *. lia.
    + split; [reflexivity|]. exists oks, fails. auto.
Qed.

Lemma batch_resize_accounts_witness :
  exists valid invalid s1,
    validate_images resizer idle = (Ok (valid, invalid), s1) /\
    (2 + List.length ["notes.txt"; "broken.png"] = List.length (image_files resizer))%nat /\
    2%nat = List.length valid /\
    exists oks fails,
      Permutation (oks ++ fails) valid /\
      2%nat = List.length oks /\
      ["notes.txt"; "broken.png"] = map name fails ++ map name invalid.
Proof.
  apply (batch_resize_accounts resizer half [("grayscale", on)] None idle
           (snd (batch_resize resizer half [("grayscale", on)] None idle))).
  reflexivity.
Defined.

(** ** Binary64: rounding to nearest, as the operations compute it *)

Lemma digits2_pos_log2 p : Zpos (digits2_pos p) = Z.log2 (Zpos p) + 1.
Proof.
  induction p as [p IH|p IH|]; cbn [digits2_pos]; try reflexivity.
  - rewrite Pos2Z.inj_succ, IH. rewrite Pos2Z.inj_xI.
    rewrite Z.log2_succ_double by lia. lia.
  - rewrite Pos2Z.inj_succ, IH. rewrite Pos2Z.inj_xO.
    rewrite Z.log2_double by lia. lia.
Qed.

Lemma digits2_bounds p :
  2 ^ (Zpos (digits2_pos p) - 1) <= Zpos p < 2 ^ Zpos (digits2_pos p).
Proof.
  rewrite digits2_pos_log2. replace (Z.log2 (Z.pos p) + 1 - 1) with (Z.log2 (Z.pos p)) by lia.
  pose proof (Z.log2_spec (Zpos p) ltac:(lia)). unfold Z.succ in *. lia.
Qed.

Lemma inject_Z_xO p : (inject_Z (Zpos p~0) == 2 * inject_Z (Zpos p))%Q.
Proof. rewrite Pos2Z.inj_xO, inject_Z_mult. reflexivity. Qed.

Lemma inject_Z_xI p : (inject_Z (Zpos p~1) == 2 * inject_Z (Zpos p) + 1)%Q.
Proof. rewrite Pos2Z.inj_xI, inject_Z_plus, inject_Z_mult. reflexivity. Qed.

Ltac split_and H :=
  match type of H with
  | _ /\ _ => destruct H
  | _ => idtac
  end; try split.

Lemma shr_1_inbetween y mrs :
  0 <= shr_m mrs -> inbetween y mrs ->
  inbetween (y * (1#2)) (shr_1 mrs) /\ 0 <= shr_m (shr_1 mrs).
Proof.
  destruct mrs as [m r s]. unfold inbetween; cbn [shr_m shr_r shr_s].
  intros Hm Hy.
  destruct m as [|[p|p|]|p].
  - cbn [shr_1 shr_m shr_r shr_s]. split; [|lia].
    change (inject_Z 0) with 0%Q in *.
    destruct r, s; cbn [orb]; split_and Hy; lra.
  - cbn [shr_1 shr_m shr_r shr_s]. split; [|lia].
    pose proof (inject_Z_xI p) as Hp. set (P := inject_Z (Zpos p)) in *.
    set (P1 := inject_Z (Zpos p~1)) in *.
    destruct r, s; cbn [orb]; split_and Hy; lra.
  - cbn [shr_1 shr_m shr_r shr_s]. split; [|lia].
    pose proof (inject_Z_xO p) as Hp. set (P := inject_Z (Zpos p)) in *.
    set (P1 := inject_Z (Zpos p~0)) in *.
    destruct r, s; cbn [orb]; split_and Hy; lra.
  - cbn [shr_1 shr_m shr_r shr_s]. split; [|lia].
    change (inject_Z 0) with 0%Q in *. change (inject_Z 1) with 1%Q in *.
    destruct r, s; cbn [orb]; split_and Hy; lra.
  - lia.
Qed.

Lemma pow2_pos e : (0 < pow2 e)%Q.
Proof. apply Qpower_0_lt. reflexivity. Qed.

Lemma pow2_add a b : (pow2 (a + b) == pow2 a * pow2 b)%Q.
Proof. apply Qpower_plus. discriminate. Qed.

Lemma pow2_Z n : 0 <= n -> (pow2 n == inject_Z (2 ^ n))%Q.
Proof. intros Hn. unfold pow2. now rewrite Zpower_Qpower. Qed.

Lemma pow2_inv e : (pow2 e * pow2 (- e) == 1)%Q.
Proof. rewrite <- pow2_add. now replace (e + - e) with 0 by lia. Qed.

Lemma pow2_le a b : a <= b -> (pow2 a <= pow2 b)%Q.
Proof. intros Hab. apply Qpower_le_compat_l; [assumption|]. discriminate. Qed.

Lemma inbetween_ext y y' mrs : (y == y')%Q -> inbetween y mrs -> inbetween y' mrs.
Proof.
  intros Heq. unfold inbetween. destruct (shr_r mrs), (shr_s mrs); now rewrite Heq.
Qed.

Lemma iter_shr_1_inbetween p : forall y mrs,
  0 <= shr_m mrs -> inbetween y mrs ->
  inbetween (y * pow2 (- Zpos p)) (iter_pos shr_1 p mrs) /\
  0 <= shr_m (iter_pos shr_1 p mrs).
Proof.
  induction p as [p IH|p IH|]; intros y mrs Hm Hy; cbn [iter_pos].
  - destruct (shr_1_inbetween y mrs Hm Hy) as [H1 Hm1].
    destruct (IH _ _ Hm1 H1) as [H2 Hm2].
    destruct (IH _ _ Hm2 H2) as [H3 Hm3].
    split; [|assumption]. eapply inbetween_ext; [|exact H3].
    replace (- Zpos p~1) with (-1 + (- Zpos p + - Zpos p)) by lia.
    rewrite !pow2_add. change (pow2 (-1)) with (1#2)%Q. ring.
  - destruct (IH _ _ Hm Hy) as [H2 Hm2].
    destruct (IH _ _ Hm2 H2) as [H3 Hm3].
    split; [|assumption]. eapply inbetween_ext; [|exact H3].
    replace (- Zpos p~0) with (- Zpos p + - Zpos p) by lia.
    rewrite !pow2_add. ring.
  - destruct (shr_1_inbetween y mrs Hm Hy) as [H1 Hm1].
    split; [|assumption]. eapply inbetween_ext; [|exact H1].
    change (pow2 (- 1)) with (1#2)%Q. reflexivity.
Qed.

Lemma round_nearest_even_spec y mrs :
  inbetween y mrs ->
  let m := shr_m mrs in
  let m1 := round_nearest_even m (loc_of_shr_record mrs) in
  (m1 = m \/ m1 = m + 1) /\
  (inject_Z m <= y < inject_Z m + 1)%Q /\
  (inject_Z m1 - (1#2) <= y <= inject_Z m1 + (1#2))%Q.
Proof.
  destruct mrs as [m r s]. unfold inbetween; cbn [shr_m shr_r shr_s].
  intros Hy.
  destruct r, s; cbn [loc_of_shr_record round_nearest_even].
  - destruct Hy. rewrite inject_Z_plus. change (inject_Z 1) with 1%Q.
    split; [auto|]. split; split; lra.
  - destruct (Z.even m); rewrite ?inject_Z_plus; change (inject_Z 1) with 1%Q;
      (split; [auto|]); split; split; lra.
  - destruct Hy. split; [auto|]. split; split; lra.
  - split; [auto|]. split; split; lra.
Qed.

Lemma Zdigits2_log2 z : 0 < z -> Zdigits2 z = Z.log2 z + 1.
Proof. destruct z as [|p|p]; try lia. intros _. apply digits2_pos_log2. Qed.

Lemma inject_Z_le_inv a b : (inject_Z a <= inject_Z b)%Q -> a <= b.
Proof. now rewrite <- Zle_Qle. Qed.

Lemma inject_Z_lt_inv a b : (inject_Z a < inject_Z b)%Q -> a < b.
Proof. now rewrite <- Zlt_Qlt. Qed.

(** Shifting a located mantissa right by [n >= 0] bits. *)
Lemma shr_inbetween mrs e n y :
  0 <= n -> 0 <= shr_m mrs -> inbetween y mrs ->
  snd (shr mrs e n) = e + n /\
  inbetween (y * pow2 (- n)) (fst (shr mrs e n)) /\
  0 <= shr_m (fst (shr mrs e n)).
Proof.
  intros Hn Hm Hy. destruct n as [|p|p]; try lia; cbn [shr fst snd].
  - split; [lia|]. split; [|assumption].
    eapply inbetween_ext; [|exact Hy]. change (pow2 (- 0)) with 1%Q. ring.
  - split; [reflexivity|]. now apply iter_shr_1_inbetween.
Qed.

Lemma shr_m_of_loc m l : shr_m (shr_record_of_loc m l) = m.
Proof. destruct l as [|[| |]]; reflexivity. Qed.

Lemma scale_bounds (mx n : Z) (y : Q) (k : Z) :
  0 <= n -> 0 <= k ->
  2 ^ (k + n) <= mx -> mx + 1 <= 2 ^ (k + 1 + n) ->
  (inject_Z mx <= y < inject_Z mx + 1)%Q ->
  (inject_Z (2 ^ k) <= y * pow2 (- n) < inject_Z (2 ^ (k + 1)))%Q.
Proof.
  intros Hn Hk Hlo Hhi [Hy1 Hy2].
  rewrite Z.pow_add_r in Hlo, Hhi by lia.
  rewrite Zle_Qle in Hlo, Hhi.
  rewrite inject_Z_mult, <- (pow2_Z n) in Hlo, Hhi by lia.
  rewrite inject_Z_plus in Hhi. change (inject_Z 1) with 1%Q in Hhi.
  pose proof (pow2_pos n) as HA. pose proof (pow2_pos (- n)) as HB.
  pose proof (pow2_inv n) as HAB.
  set (A := pow2 n) in *. set (B := pow2 (- n)) in *.
  set (lo := inject_Z (2 ^ k)) in *. set (hi := inject_Z (2 ^ (k + 1))) in *.
  set (m := inject_Z mx) in *. clearbody A B lo hi m.
  assert (lo * A * B <= y * B)%Q as H1.
  { apply Qmult_le_compat_r; lra. }
  assert (y * B < hi * A * B)%Q as H2.
  { apply Qmult_lt_compat_r; lra. }
  assert (lo * A * B == lo)%Q as E1 by (rewrite <- Qmult_assoc, HAB; ring).
  assert (hi * A * B == hi)%Q as E2 by (rewrite <- Qmult_assoc, HAB; ring).
  rewrite E1 in H1. rewrite E2 in H2. split; assumption.
Qed.

Lemma binary_round_aux_correct (mx : positive) (ex : Z) (lx : location) (x : Q) :
  let d := Zpos (digits2_pos mx) in
  let E := d + ex - 53 in
  inbetween (x * pow2 (- ex)) (shr_record_of_loc (Zpos mx) lx) ->
  53 <= d -> -1074 <= E <= 970 ->
  exists m e M,
    binary_round_aux 53 1024 false (Zpos mx) ex lx = S754_finite false m e /\
    2 ^ 52 <= Zpos m < 2 ^ 53 /\ E <= e <= E + 1 /\
    (inject_Z (Zpos m) * pow2 e == inject_Z M * pow2 E)%Q /\
    2 ^ 52 <= M <= 2 ^ 53 /\
    (inject_Z M - (1#2) <= x * pow2 (- E) <= inject_Z M + (1#2))%Q /\
    (inject_Z (2 ^ 52) <= x * pow2 (- E) < inject_Z (2 ^ 53))%Q.
Proof.
  intros d E Hx Hd HE.
  assert (fexp 53 1024 (Zdigits2 (Zpos mx) + ex) = E) as Hfexp.
  { unfold fexp, emin. cbn [Zdigits2]. fold d. lia. }
  assert (0 <= E - ex) as Hn by (unfold E; lia).
  pose proof (shr_inbetween (shr_record_of_loc (Zpos mx) lx) ex (E - ex) _ Hn
                ltac:(rewrite shr_m_of_loc; lia) Hx) as (He' & Hy' & Hm').
  (* the scaled value lies in [2^52, 2^53) *)
  pose proof (round_nearest_even_spec _ _ Hx) as (_ & Hx0 & _).
  cbv zeta in Hx0. rewrite shr_m_of_loc in Hx0.
  pose proof (digits2_bounds mx) as Hdig. fold d in Hdig.
  pose proof (scale_bounds (Zpos mx) (E - ex) _ 52 Hn ltac:(lia)
                ltac:(replace (52 + (E - ex)) with (d - 1) by (unfold E; lia); lia)
                ltac:(replace (52 + 1 + (E - ex)) with d by (unfold E; lia); lia)
                Hx0) as Hrange.
  assert (x * pow2 (- ex) * pow2 (- (E - ex)) == x * pow2 (- E))%Q as Hscale.
  { rewrite <- Qmult_assoc, <- pow2_add. now replace (- ex + - (E - ex)) with (- E) by lia. }
  rewrite Hscale in Hrange. change (52 + 1) with 53 in Hrange.
  apply (inbetween_ext _ _ _ Hscale) in Hy'.
  unfold binary_round_aux, shr_fexp. rewrite Hfexp.
  destruct (shr (shr_record_of_loc (Zpos mx) lx) ex (E - ex)) as [mrs' e'].
  cbn [fst snd] in He', Hy', Hm'. replace (ex + (E - ex)) with E in He' by lia. subst e'.
  pose proof (round_nearest_even_spec _ _ Hy') as (Hm1 & Hfloor & Hround).
  cbv zeta in Hm1, Hfloor, Hround.
  set (m1 := round_nearest_even (shr_m mrs') (loc_of_shr_record mrs')) in *.
  set (y := (x * pow2 (- E))%Q) in *.
  assert (2 ^ 52 <= shr_m mrs' < 2 ^ 53) as Hm'range.
  { split.
    - assert (inject_Z (2 ^ 52) < inject_Z (shr_m mrs' + 1))%Q as H.
      { rewrite inject_Z_plus. change (inject_Z 1) with 1%Q. lra. }
      apply inject_Z_lt_inv in H. lia.
    - apply inject_Z_lt_inv. lra. }
  assert (2 ^ 52 <= m1 <= 2 ^ 53) as Hm1range by lia.
  destruct (Z.eq_dec m1 (2 ^ 53)) as [Hcarry|Hnocarry].
  - (* the mantissa rounds up to 2^53 and is renormalised *)
    rewrite Hcarry. change (Zdigits2 (2 ^ 53)) with 54.
    assert (fexp 53 1024 (54 + E) - E = 1) as -> by (unfold fexp, emin; lia).
    cbn [shr shr_record_of_loc iter_pos]. cbn.
    assert ((E + 1 <=? 971) = true) as -> by (apply Z.leb_le; lia).
    eexists _, _, m1. split; [reflexivity|].
    split; [lia|]. split; [lia|]. split.
    + rewrite Hcarry, pow2_add. change (pow2 1) with 2%Q.
      change (inject_Z (2 ^ 53)) with (2 * inject_Z 4503599627370496)%Q. ring.
    + split; [lia|]. split; [exact Hround|exact Hrange].
  - assert (Zdigits2 m1 = 53) as Hdig1.
    { rewrite Zdigits2_log2 by lia.
      rewrite (Z.log2_unique m1 52); [reflexivity|lia|]. change (52 + 1) with 53. lia. }
    rewrite Hdig1.
    assert (fexp 53 1024 (53 + E) - E = 0) as -> by (unfold fexp, emin; lia).
    cbn [shr shr_record_of_loc shr_m].
    destruct m1 as [|m|m]; try lia.
    assert ((E <=? 1024 - 53) = true) as -> by (apply Z.leb_le; lia).
    exists m, E, (Zpos m). split; [reflexivity|].
    split; [lia|]. split; [lia|]. split; [reflexivity|]. split; [lia|].
    split; [exact Hround|exact Hrange].
Qed.

Ltac qz :=
  match goal with
  | |- context [(inject_Z ?r / inject_Z ?m)%Q] =>
      set (z := (inject_Z r / inject_Z m)%Q) in *; clearbody z;
      change (inject_Z 0) with 0%Q
  end.

Lemma new_location_spec (m2 r : Z) :
  0 < m2 -> 0 <= r < m2 ->
  inbetween (inject_Z r / inject_Z m2) (shr_record_of_loc 0 (new_location m2 r)).
Proof.
  intros Hm2 Hr.
  assert (0 < inject_Z m2)%Q as Hpos by (rewrite <- (Zlt_Qlt 0); lia).
  assert (~ inject_Z m2 == 0)%Q as Hne by (intros H; rewrite H in Hpos; discriminate).
  assert (forall a b : Z, (a < b * m2)%Z -> (inject_Z a / inject_Z m2 < inject_Z b)%Q) as Hlt.
  { intros a b Hab. apply Qlt_shift_div_r; [assumption|].
    rewrite <- inject_Z_mult, <- Zlt_Qlt. assumption. }
  assert (forall a b : Z, (b * m2 < a)%Z -> (inject_Z b < inject_Z a / inject_Z m2)%Q) as Hgt.
  { intros a b Hab. apply Qlt_shift_div_l; [assumption|].
    rewrite <- inject_Z_mult, <- Zlt_Qlt. assumption. }
  assert (inject_Z (2 * r) / inject_Z m2 == 2 * (inject_Z r / inject_Z m2))%Q as H2r.
  { rewrite inject_Z_mult. change (inject_Z 2) with 2%Q. field. exact Hne. }
  assert (inbetween (inject_Z 0 / inject_Z m2) (shr_record_of_loc 0 loc_Exact)) as Hexact.
  { unfold inbetween; cbn. unfold Qdiv. rewrite Qmult_0_l. reflexivity. }
  pose proof (Hlt r 1 ltac:(lia)) as Hr1. change (inject_Z 1) with 1%Q in Hr1.
  unfold new_location. destruct (Z.even m2) eqn:Heven;
    unfold new_location_even, new_location_odd;
    (destruct (Z.eqb_spec r 0) as [->|Hr0]; [exact Hexact|]);
    pose proof (Hgt r 0 ltac:(lia)) as H0; change (inject_Z 0) with 0%Q in H0.
  - destruct (Z.compare_spec (2 * r) m2) as [Heq|Hlt'|Hgt']; unfold inbetween; cbn.
    + assert (inject_Z (2 * r) / inject_Z m2 == 1)%Q as H1.
      { rewrite Heq. field. exact Hne. }
      rewrite H2r in H1. qz; lra.
    + pose proof (Hlt (2 * r) 1 ltac:(lia)) as H1. change (inject_Z 1) with 1%Q in H1.
      rewrite H2r in H1. qz; split; lra.
    + pose proof (Hgt (2 * r) 1 ltac:(lia)) as H1. change (inject_Z 1) with 1%Q in H1.
      rewrite H2r in H1. qz; split; lra.
  - assert (2 * r <> m2) as Hodd.
    { intros <-. rewrite Z.even_mul in Heven. discriminate. }
    destruct (Z.compare_spec (2 * r + 1) m2) as [Heq|Hlt'|Hgt']; unfold inbetween; cbn.
    + pose proof (Hlt (2 * r) 1 ltac:(lia)) as H1. change (inject_Z 1) with 1%Q in H1.
      rewrite H2r in H1. qz; split; lra.
    + pose proof (Hlt (2 * r) 1 ltac:(lia)) as H1. change (inject_Z 1) with 1%Q in H1.
      rewrite H2r in H1. qz; split; lra.
    + pose proof (Hgt (2 * r) 1 ltac:(lia)) as H1. change (inject_Z 1) with 1%Q in H1.
      rewrite H2r in H1. qz; split; lra.
Qed.

Lemma inbetween_shift q y l :
  inbetween y (shr_record_of_loc 0 l) ->
  inbetween (inject_Z q + y) (shr_record_of_loc q l).
Proof.
  destruct l as [|[| |]]; unfold inbetween; cbn; change (inject_Z 0) with 0%Q; intros H;
    split_and H; lra.
Qed.

Lemma pow2_opp e : (pow2 (- e) == / pow2 e)%Q.
Proof. apply Qpower_opp. Qed.

Lemma pow2_nonzero e : ~ (pow2 e == 0)%Q.
Proof. pose proof (pow2_pos e). lra. Qed.

Lemma digits_between (q k : Z) :
  0 <= k -> 2 ^ k <= q < 2 ^ (k + 2) -> k + 1 <= Zdigits2 q <= k + 2.
Proof.
  intros Hk [Hlo Hhi].
  assert (0 < q) as Hq by (pose proof (Z.pow_pos_nonneg 2 k); lia).
  rewrite Zdigits2_log2 by assumption.
  pose proof (Z.log2_le_mono _ _ Hlo) as H1. rewrite Z.log2_pow2 in H1 by lia.
  assert (Z.log2 q < k + 2) by (apply Z.log2_lt_pow2; lia).
  lia.
Qed.

Lemma shift_mantissa (m s : Z) :
  0 <= s ->
  match s with
  | 0 => m
  | Zpos _ => Z.shiftl m s
  | Zneg _ => 0
  end = m * 2 ^ s.
Proof.
  intros Hs. destruct s as [|p|p]; [now rewrite Z.mul_1_r|now rewrite Z.shiftl_mul_pow2|lia].
Qed.

Lemma SFdiv_rounds (m1 m2 : positive) (e1 e2 : Z) :
  let D := Zpos (digits2_pos m1) + e1 - (Zpos (digits2_pos m2) + e2) in
  let X := (inject_Z (Zpos m1) * pow2 e1 / (inject_Z (Zpos m2) * pow2 e2))%Q in
  -1021 <= D <= 1022 -> -1074 <= e1 - e2 ->
  exists E, D - 53 <= E <= D - 52 /\
            rounds X E (SFdiv 53 1024 (S754_finite false m1 e1) (S754_finite false m2 e2)).
Proof.
  intros D X HD He.
  set (d1 := Zpos (digits2_pos m1)) in *. set (d2 := Zpos (digits2_pos m2)) in *.
  pose proof (digits2_bounds m1) as Hm1. pose proof (digits2_bounds m2) as Hm2.
  fold d1 in Hm1. fold d2 in Hm2.
  assert (1 <= d1 /\ 1 <= d2) as [Hd1 Hd2] by (unfold d1, d2; lia).
  unfold SFdiv, SFdiv_core_binary. cbn [Zdigits2 xorb]. fold d1 d2.
  assert (fexp 53 1024 (d1 + e1 - (d2 + e2)) = D - 53) as ->
    by (unfold fexp, emin; fold D; lia).
  set (e' := Z.min (D - 53) (e1 - e2)).
  set (s := e1 - e2 - e').
  assert (0 <= s) as Hs by (unfold s, e'; lia).
  assert (match s with
          | 0 => Zpos m1
          | Zpos _ => Z.shiftl (Zpos m1) s
          | Zneg _ => 0
          end = Zpos m1 * 2 ^ s) as ->.
  { apply shift_mantissa; assumption. }
  set (m' := Zpos m1 * 2 ^ s).
  pose proof (Z_div_mod m' (Zpos m2) ltac:(lia)) as Hdiv.
  destruct (Z.div_eucl m' (Zpos m2)) as [q r]. destruct Hdiv as [Hqr Hr].
  (* the quotient has between 53 and [d1 + s - d2 + 1] bits *)
  set (k := d1 - 1 + s - d2).
  assert (52 <= k) as Hk by (unfold k, s, e', D; lia).
  assert (2 ^ k <= q < 2 ^ (k + 2)) as Hq.
  { assert (2 ^ (d1 - 1) * 2 ^ s <= m') as Hlo
      by (unfold m'; apply Z.mul_le_mono_nonneg_r; lia).
    assert (m' < 2 ^ d1 * 2 ^ s) as Hhi
      by (unfold m'; apply Z.mul_lt_mono_pos_r; lia).
    rewrite <- Z.pow_add_r in Hlo, Hhi by lia.
    replace (d1 - 1 + s) with (k + d2) in Hlo by (unfold k; lia).
    replace (d1 + s) with (k + 2 + (d2 - 1)) in Hhi by (unfold k; lia).
    rewrite Z.pow_add_r in Hlo, Hhi by lia.
    assert (0 < 2 ^ k) by (apply Z.pow_pos_nonneg; lia).
    assert (0 < 2 ^ (k + 2)) by (apply Z.pow_pos_nonneg; lia).
    split.
    - assert (2 ^ k * Zpos m2 < Zpos m2 * (q + 1)) by nia. nia.
    - assert (Zpos m2 * q < 2 ^ (k + 2) * Zpos m2) by nia. nia. }
  pose proof (digits_between q k ltac:(lia) Hq) as Hdq.
  destruct q as [|mq|mq]; try (pose proof (Z.pow_pos_nonneg 2 k); lia).
  cbn [Zdigits2] in Hdq. set (dq := Zpos (digits2_pos mq)) in *.
  assert (k + 1 + e' = D) as HkD by (unfold k, s, D; lia).
  exists (dq + e' - 53). split; [lia|].
  assert (X * pow2 (- e') == inject_Z (Zpos mq) + inject_Z r / inject_Z (Zpos m2))%Q as HX.
  { assert (inject_Z m' == inject_Z (Zpos m1) * (pow2 e1 * / pow2 e2 * / pow2 e'))%Q as Hm'.
    { unfold m'. rewrite inject_Z_mult, <- pow2_Z by assumption. unfold s.
      replace (e1 - e2 - e') with (e1 + (- e2 + - e')) by lia.
      rewrite !pow2_add, !pow2_opp. ring. }
    rewrite Hqr, inject_Z_plus, inject_Z_mult in Hm'.
    unfold X. rewrite pow2_opp.
    pose proof (pow2_nonzero e1). pose proof (pow2_nonzero e2). pose proof (pow2_nonzero e').
    assert (~ inject_Z (Zpos m2) == 0)%Q as Hne.
    { assert (0 < inject_Z (Zpos m2))%Q by (rewrite <- (Zlt_Qlt 0); lia). lra. }
    set (a1 := pow2 e1) in *. set (a2 := pow2 e2) in *. set (a' := pow2 e') in *.
    set (M1 := inject_Z (Zpos m1)) in *. set (M2 := inject_Z (Zpos m2)) in *.
    set (Qq := inject_Z (Zpos mq)) in *. set (Qr := inject_Z r) in *.
    clearbody a1 a2 a' M1 M2 Qq Qr.
    assert (Qq + Qr / M2 == (M2 * Qq + Qr) / M2)%Q as -> by (field; assumption).
    rewrite Hm'. field. auto. }
  pose proof (inbetween_shift (Zpos mq) _ _ (new_location_spec (Zpos m2) r ltac:(lia) Hr))
    as Hloc.
  apply (inbetween_ext _ (X * pow2 (- e'))) in Hloc; [|now rewrite HX].
  destruct (binary_round_aux_correct mq e' _ X Hloc) as (m & e & M & Hres & Hm & He' & Hval & HM & Hround & Hrange).
  { fold dq. lia. }
  { fold dq. unfold e' in *. lia. }
  fold dq in He', Hval, Hround, Hrange.
  exists m, e, M. rewrite Hres. cbn [B2Q]. auto 10.
Qed.

Lemma SFmul_rounds (m1 m2 : positive) (e1 e2 : Z) :
  let d := Zpos (digits2_pos (m1 * m2)) in
  let E := d + (e1 + e2) - 53 in
  53 <= d -> -1074 <= E <= 970 ->
  rounds (inject_Z (Zpos m1) * pow2 e1 * (inject_Z (Zpos m2) * pow2 e2)) E
    (SFmul 53 1024 (S754_finite false m1 e1) (S754_finite false m2 e2)).
Proof.
  intros d E Hd HE. unfold SFmul. cbn [xorb].
  set (x := (inject_Z (Zpos m1) * pow2 e1 * (inject_Z (Zpos m2) * pow2 e2))%Q).
  destruct (binary_round_aux_correct (m1 * m2) (e1 + e2) loc_Exact x)
    as (m & e & M & Hres & Hm & He & Hval & HM & Hround & Hrange); try assumption.
  - unfold inbetween; cbn [shr_record_of_loc shr_m shr_r shr_s].
    rewrite Pos2Z.inj_mul, inject_Z_mult. unfold x.
    replace (- (e1 + e2)) with (- e1 + - e2) by lia.
    rewrite pow2_add, !pow2_opp. field.
    split; apply pow2_nonzero.
  - exists m, e, M. rewrite Hres. cbn [B2Q]. auto 10.
Qed.

Lemma iter_xO_pow2 (p k : positive) : Zpos (Pos.iter xO p k) = Zpos p * 2 ^ Zpos k.
Proof.
  induction k as [|k IH] using Pos.peano_ind.
  - cbn [Pos.iter]. lia.
  - rewrite Pos.iter_succ, Pos2Z.inj_xO, IH, Pos2Z.inj_succ, Z.pow_succ_r by lia. lia.
Qed.

Lemma inject_Z_half_le a b : (inject_Z a - (1#2) <= inject_Z b)%Q -> a <= b.
Proof.
  intros H. assert (inject_Z a < inject_Z (b + 1))%Q as H1.
  { rewrite inject_Z_plus. change (inject_Z 1) with 1%Q. lra. }
  apply inject_Z_lt_inv in H1. lia.
Qed.

Lemma rounds_exact x E F (K : Z) :
  rounds x E F -> (x * pow2 (- E) == inject_Z K)%Q -> (B2Q F == x)%Q.
Proof.
  intros (m & e & M & Hres & Hm & He & Hval & HM & Hround & _) HK.
  rewrite HK in Hround.
  assert (M = K) as ->.
  { destruct Hround as [H1 H2].
    apply inject_Z_half_le in H1. assert (K <= M) by (apply inject_Z_half_le; lra). lia. }
  rewrite Hval, <- HK, <- Qmult_assoc, (Qmult_comm (pow2 (- E))), pow2_inv. ring.
Qed.

(** Half a unit in the last place is at most [x / (2^53 - 1)]. *)
Lemma rounds_error x E F :
  rounds x E F ->
  (0 < x /\ (B2Q F - x) * 9007199254740991 <= x /\ (x - B2Q F) * 9007199254740991 <= x)%Q.
Proof.
  intros (m & e & M & Hres & Hm & He & Hval & HM & Hround & _).
  assert (inject_Z (2 ^ 52) <= inject_Z M)%Q as HM' by (rewrite <- Zle_Qle; lia).
  change (inject_Z (2 ^ 52)) with 4503599627370496%Q in HM'.
  pose proof (pow2_pos E) as HE. pose proof (pow2_inv E) as Hinv.
  set (t := (x * pow2 (- E))%Q) in *.
  assert (x == t * pow2 E)%Q as Hx.
  { unfold t. rewrite <- Qmult_assoc, (Qmult_comm (pow2 (- E))), Hinv. ring. }
  rewrite Hval, Hx. set (G := pow2 E) in *. set (QM := inject_Z M) in *.
  clearbody t G QM.
  assert ((QM - t) * 9007199254740991 * G <= t * G)%Q as H1
    by (apply Qmult_le_compat_r; lra).
  assert ((t - QM) * 9007199254740991 * G <= t * G)%Q as H2
    by (apply Qmult_le_compat_r; lra).
  assert (0 * G < t * G)%Q as H3 by (apply Qmult_lt_compat_r; lra).
  split; [lra|]. split.
  - assert ((QM * G - t * G) * 9007199254740991 == (QM - t) * 9007199254740991 * G)%Q as ->
      by ring. exact H1.
  - assert ((t * G - QM * G) * 9007199254740991 == (t - QM) * 9007199254740991 * G)%Q as ->
      by ring. exact H2.
Qed.

Lemma binary_round_aux_rounds (mx : positive) (ex : Z) (lx : location) (x : Q) :
  let d := Zpos (digits2_pos mx) in
  inbetween (x * pow2 (- ex)) (shr_record_of_loc (Zpos mx) lx) ->
  53 <= d -> -1074 <= d + ex - 53 <= 970 ->
  rounds x (d + ex - 53) (binary_round_aux 53 1024 false (Zpos mx) ex lx).
Proof.
  intros d Hx Hd HE.
  destruct (binary_round_aux_correct mx ex lx x Hx Hd HE)
    as (m & e & M & Hres & Hm & He & Hval & HM & Hround & Hrange).
  exists m, e, M. rewrite Hres. cbn [B2Q]. auto 10.
Qed.

Lemma digits_unique (p : positive) (k : Z) :
  0 < k -> 2 ^ (k - 1) <= Zpos p < 2 ^ k -> Zpos (digits2_pos p) = k.
Proof.
  intros Hk Hp. rewrite digits2_pos_log2.
  rewrite (Z.log2_unique (Zpos p) (k - 1)); [lia|lia|].
  now replace (Z.succ (k - 1)) with k by lia.
Qed.

(** ** Python's conversions between [int] and [float] *)

(** [float(z)] is exact below [2^53]; the float it returns is normal. *)
Lemma float_of_int_exact (z : Z) :
  1 <= z < 2 ^ 53 ->
  exists m e,
    float_of_int z = Ok (S754_finite false m e) /\
    2 ^ 52 <= Zpos m < 2 ^ 53 /\ -52 <= e <= 1 /\
    (inject_Z (Zpos m) * pow2 e == inject_Z z)%Q.
Proof.
  intros Hz. destruct z as [|p|p]; try lia.
  pose proof (digits2_bounds p) as Hdig. set (dp := Zpos (digits2_pos p)) in *.
  assert (1 <= dp <= 53) as Hdp.
  { split; [unfold dp; lia|].
    destruct (Z_lt_le_dec 53 dp) as [Hgt|]; [|assumption].
    assert (2 ^ 53 <= 2 ^ (dp - 1)) by (apply Z.pow_le_mono_r; lia). lia. }
  unfold float_of_int, binary_normalize, binary_round.
  assert (fexp prec emax (dp + 0) = dp - 53) as Hfexp by (unfold fexp, emin, prec, emax; lia).
  fold dp. rewrite Hfexp.
  assert (exists mz, shl_align p 0 (dp - 53) = (mz, dp - 53) /\
                     Zpos mz = Zpos p * 2 ^ (53 - dp)) as (mz & -> & Hmz).
  { unfold shl_align. destruct (dp - 53 - 0) as [|q|q] eqn:Hsh; try lia.
    - exists p. replace (dp - 53) with 0 by lia. replace (53 - dp) with 0 by lia.
      split; [reflexivity|lia].
    - exists (Pos.iter xO p q). split; [reflexivity|].
      rewrite iter_xO_pow2. f_equal. f_equal. lia. }
  assert (Zpos (digits2_pos mz) = 53) as Hdz.
  { apply digits_unique; [lia|]. rewrite Hmz.
    assert (2 ^ (53 - 1) = 2 ^ (dp - 1) * 2 ^ (53 - dp)) as ->
      by (rewrite <- Z.pow_add_r by lia; f_equal; lia).
    assert (2 ^ 53 = 2 ^ dp * 2 ^ (53 - dp)) as ->
      by (rewrite <- Z.pow_add_r by lia; f_equal; lia).
    assert (0 < 2 ^ (53 - dp)) by (apply Z.pow_pos_nonneg; lia).
    split; [apply Z.mul_le_mono_nonneg_r|apply Z.mul_lt_mono_pos_r]; lia. }
  pose proof (binary_round_aux_rounds mz (dp - 53) loc_Exact (inject_Z (Zpos p))) as Hr.
  cbv zeta in Hr. rewrite Hdz in Hr.
  assert (inject_Z (Zpos p) * pow2 (- (dp - 53)) == inject_Z (Zpos mz))%Q as Hscaled.
  { rewrite Hmz, inject_Z_mult. replace (- (dp - 53)) with (53 - dp) by lia.
    now rewrite pow2_Z by lia. }
  specialize (Hr Hscaled ltac:(lia) ltac:(lia)).
  replace (53 + (dp - 53) - 53) with (dp - 53) in Hr by lia.
  pose proof (rounds_exact _ _ _ _ Hr Hscaled) as Hexact.
  destruct Hr as (m & e & M & Hres & Hm & He & _).
  unfold prec, emax. rewrite Hres in Hexact |- *. cbn [is_infinite B2Q] in Hexact |- *.
  exists m, e. split; [reflexivity|]. split; [assumption|]. split; [lia|assumption].
Qed.

Lemma Qfloor_unique (v : Q) (k : Z) :
  (inject_Z k <= v < inject_Z k + 1)%Q -> Qfloor v = k.
Proof.
  intros [Hlo Hhi].
  pose proof (Qfloor_le v) as H1. pose proof (Qlt_floor v) as H2.
  rewrite inject_Z_plus in H2. change (inject_Z 1) with 1%Q in H2.
  assert (inject_Z k < inject_Z (Qfloor v + 1))%Q as H3
    by (rewrite inject_Z_plus; change (inject_Z 1) with 1%Q; lra).
  assert (inject_Z (Qfloor v) < inject_Z (k + 1))%Q as H4
    by (rewrite inject_Z_plus; change (inject_Z 1) with 1%Q; lra).
  apply inject_Z_lt_inv in H3, H4. lia.
Qed.

(** [int(f)] on a positive float is the floor of its value. *)
Lemma int_of_float_floor (m : positive) (e : Z) :
  int_of_float (S754_finite false m e) = Ok (Qfloor (B2Q (S754_finite false m e))).
Proof.
  unfold int_of_float, B2Q. f_equal. symmetry.
  destruct e as [|k|k].
  - change (pow2 0) with 1%Q. rewrite Qmult_1_r, Qfloor_Z. now rewrite Z.shiftl_0_r.
  - rewrite pow2_Z, <- inject_Z_mult, Qfloor_Z, Z.shiftl_mul_pow2 by lia. reflexivity.
  - rewrite Z.shiftr_div_pow2 by lia. cbn [Z.opp].
    rewrite Zdiv_Qdiv. apply Qfloor_comp.
    change (Zneg k) with (- Zpos k). rewrite pow2_opp, pow2_Z by lia. reflexivity.
Qed.

(** ** The percentage policy *)

(** The floor of a quotient by 100 survives the rounding to binary64, the
    dividend being below [2^53]. *)
Lemma floor_of_rounded_percent (n E : Z) (F : spec_float) :
  1 <= n < 2 ^ 53 -> rounds (inject_Z n / 100) E F -> Qfloor (B2Q F) = n / 100.
Proof.
  intros Hn (m & e & M & Hres & Hm & He & Hval & HM & [Hlo Hhi] & _).
  set (X := (inject_Z n / 100)%Q) in *.
  assert (X * 100 == inject_Z n)%Q as HX by (unfold X; field).
  clearbody X.
  assert (inject_Z 1 <= inject_Z n < inject_Z (2 ^ 53))%Q as [Hn1 Hn2]
    by (rewrite <- Zle_Qle, <- Zlt_Qlt; lia).
  change (inject_Z 1) with 1%Q in Hn1.
  change (inject_Z (2 ^ 53)) with 9007199254740992%Q in Hn2.
  assert (inject_Z (2 ^ 52) <= inject_Z M)%Q as HM' by (rewrite <- Zle_Qle; lia).
  change (inject_Z (2 ^ 52)) with 4503599627370496%Q in HM'.
  (* the grid is finer than 1/64 *)
  assert (E <= -6) as HE.
  { destruct (Z_le_gt_dec E (-6)) as [|Hgt]; [assumption|exfalso].
    pose proof (pow2_le (- E) 5 ltac:(lia)) as Hp. change (pow2 5) with 32%Q in Hp.
    assert (0 < X)%Q as HX0 by lra.
    assert (X * pow2 (- E) <= X * 32)%Q as Ht by (apply Qmult_le_l; assumption).
    lra. }
  set (G := 2 ^ (- E)).
  assert (pow2 (- E) == inject_Z G)%Q as HG by (apply pow2_Z; lia).
  assert (64 <= G) as HG64 by (change 64 with (2 ^ 6); apply Z.pow_le_mono_r; lia).
  assert (inject_Z (n * G) == 100 * (X * pow2 (- E)))%Q as HnG.
  { rewrite inject_Z_mult, <- HX, HG. ring. }
  assert (100 * M <= n * G + 50 /\ n * G <= 100 * M + 50) as [HZ1 HZ2].
  { assert (inject_Z (100 * M) == 100 * inject_Z M)%Q as H100
      by (rewrite inject_Z_mult; reflexivity).
    set (t := (X * pow2 (- E))%Q) in *. clearbody t.
    split; apply inject_Z_le_inv; rewrite inject_Z_plus, HnG, H100;
      change (inject_Z 50) with 50%Q; lra. }
  pose proof (Z.div_mod n 100 ltac:(lia)) as Hdm.
  pose proof (Z.mod_pos_bound n 100 ltac:(lia)) as Hr.
  set (k := n / 100) in *. set (r := n mod 100) in *.
  assert (k * G <= M < (k + 1) * G) as [Hk1 Hk2].
  { assert (n * G = 100 * (k * G) + r * G) as HnG' by (rewrite Hdm; ring).
    assert (0 <= r * G <= 99 * G) as HrG by nia.
    lia. }
  (* back to the value of the float *)
  apply Qfloor_unique. rewrite Hval.
  pose proof (pow2_pos E) as HposE.
  assert (inject_Z G * pow2 E == 1)%Q as Hinv
    by (rewrite <- HG, Qmult_comm; apply pow2_inv).
  assert (inject_Z (k * G) <= inject_Z M < inject_Z ((k + 1) * G))%Q as [HQ1 HQ2]
    by (rewrite <- Zle_Qle, <- Zlt_Qlt; lia).
  rewrite !inject_Z_mult, inject_Z_plus in *. change (inject_Z 1) with 1%Q in *.
  set (QK := inject_Z k) in *. set (QG := inject_Z G) in *. set (QM := inject_Z M) in *.
  set (P := pow2 E) in *. clearbody QK QG QM P.
  assert (QK * QG * P <= QM * P)%Q as H1 by (apply Qmult_le_compat_r; lra).
  assert (QM * P < (QK + 1) * QG * P)%Q as H2 by (apply Qmult_lt_compat_r; lra).
  assert (QK * QG * P == QK)%Q as E1 by (rewrite <- Qmult_assoc, Hinv; ring).
  assert ((QK + 1) * QG * P == QK + 1)%Q as E2 by (rewrite <- Qmult_assoc, Hinv; ring).
  rewrite E1 in H1. rewrite E2 in H2. split; assumption.
Qed.

Lemma rounds_ext x x' E F : (x == x')%Q -> rounds x E F -> rounds x' E F.
Proof.
  intros Heq (m & e & M & Hres & Hm & He & Hval & HM & Hround & Hrange).
  exists m, e, M. rewrite <- Heq. auto 10.
Qed.

(** An integer below [2^53] is its own rounding. *)
Lemma rounds_int (n E : Z) (F : spec_float) :
  1 <= n < 2 ^ 53 -> rounds (inject_Z n) E F -> (B2Q F == inject_Z n)%Q.
Proof.
  intros Hn Hr.
  assert (E <= 0) as HE.
  { destruct Hr as (_ & _ & _ & _ & _ & _ & _ & _ & _ & [Hlo _]).
    destruct (Z_le_gt_dec E 0) as [|Hgt]; [assumption|exfalso].
    pose proof (pow2_le (- E) (-1) ltac:(lia)) as Hp. change (pow2 (-1)) with (1#2)%Q in Hp.
    assert (inject_Z 1 <= inject_Z n < inject_Z (2 ^ 53))%Q as [Hn1 Hn2]
      by (rewrite <- Zle_Qle, <- Zlt_Qlt; lia).
    change (inject_Z 1) with 1%Q in Hn1.
    change (inject_Z (2 ^ 53)) with 9007199254740992%Q in Hn2.
    change (inject_Z (2 ^ 52)) with 4503599627370496%Q in Hlo.
    assert (inject_Z n * pow2 (- E) <= inject_Z n * (1#2))%Q as Ht
      by (apply Qmult_le_l; lra).
    lra. }
  apply (rounds_exact _ E _ (n * 2 ^ (- E))); [assumption|].
  now rewrite inject_Z_mult, pow2_Z by lia.
Qed.

(** [int(n / 100)] on an int below [2^53]. *)
Lemma percent_of_int (n : Z) :
  1 <= n < 2 ^ 53 ->
  (q <- truediv (PyInt n) (PyInt 100) ;; int q) = Ok (n / 100).
Proof.
  intros Hn. destruct n as [|p|p]; try lia.
  unfold truediv, float_div, exact_of_Z, prec, emax. cbn [Z.eqb].
  pose proof (digits2_bounds p) as Hdig. set (dp := Zpos (digits2_pos p)) in *.
  assert (1 <= dp <= 53) as Hdp.
  { split; [unfold dp; lia|].
    destruct (Z_lt_le_dec 53 dp) as [Hgt|]; [|assumption].
    assert (2 ^ 53 <= 2 ^ (dp - 1)) by (apply Z.pow_le_mono_r; lia). lia. }
  destruct (SFdiv_rounds p 100 0 0) as (E & HE & Hr).
  { fold dp. change (Zpos (digits2_pos 100)) with 7. lia. }
  { lia. }
  apply (rounds_ext _ (inject_Z (Zpos p) / 100)) in Hr.
  2:{ change (pow2 0) with 1%Q. change (inject_Z 100) with 100%Q. field. }
  pose proof (floor_of_rounded_percent _ _ _ Hn Hr) as Hfloor.
  destruct Hr as (m & e & M & Hres & _). rewrite Hres in Hfloor |- *.
  cbn [is_infinite bind int]. now rewrite int_of_float_floor, Hfloor.
Qed.

(** [int(w * p / 100)] when [p] is the float of an integer and the product
    is below [2^53]: the product is exact and the quotient is rounded once. *)
Lemma percent_of_float (w p : Z) (fp : spec_float) :
  1 <= w -> 1 <= p -> w * p < 2 ^ 53 -> float_of_int p = Ok fp ->
  (a <- mul (PyInt w) (PyFloat fp) ;; b <- truediv a (PyInt 100) ;; int b)
    = Ok (w * p / 100).
Proof.
  intros Hw Hp Hwp Hfp.
  assert (w < 2 ^ 53 /\ p < 2 ^ 53) as [Hw' Hp'] by nia.
  assert (1 <= w * p) as Hwp1 by nia.
  destruct (float_of_int_exact w ltac:(lia)) as (mw & ew & Hfw & Hmw & Hew & Hvw).
  destruct (float_of_int_exact p ltac:(lia)) as (mp & ep & Hfp' & Hmp & Hep & Hvp).
  rewrite Hfp in Hfp'. injection Hfp' as ->.
  unfold mul, to_float. rewrite Hfw. cbn [bind].
  (* the product *)
  pose proof (digits2_bounds (mw * mp)) as Hdig.
  set (d := Zpos (digits2_pos (mw * mp))) in *.
  assert (105 <= d <= 106) as Hd.
  { rewrite Pos2Z.inj_mul in Hdig.
    assert (2 ^ 104 <= Zpos mw * Zpos mp < 2 ^ 106) as Hprod.
    { change (2 ^ 104) with (2 ^ 52 * 2 ^ 52). change (2 ^ 106) with (2 ^ 53 * 2 ^ 53).
      split; [apply Z.mul_le_mono_nonneg|apply Z.mul_lt_mono_nonneg]; lia. }
    split.
    - destruct (Z_lt_le_dec d 105) as [Hlt|]; [|assumption].
      assert (2 ^ d <= 2 ^ 104) by (apply Z.pow_le_mono_r; lia). lia.
    - destruct (Z_lt_le_dec 106 d) as [Hgt|]; [|assumption].
      assert (2 ^ 106 <= 2 ^ (d - 1)) by (apply Z.pow_le_mono_r; lia). lia. }
  pose proof (SFmul_rounds mw mp ew ep) as Hr. cbv zeta in Hr. fold d in Hr.
  specialize (Hr ltac:(lia) ltac:(lia)).
  apply (rounds_ext _ (inject_Z (w * p))) in Hr.
  2:{ rewrite Hvw, Hvp, inject_Z_mult. reflexivity. }
  pose proof (rounds_int _ _ _ (conj Hwp1 Hwp) Hr) as Hvn.
  destruct Hr as (mn & en & _ & Hfn & Hmn & Hen & _).
  unfold float_mul, prec, emax in *. rewrite Hfn in Hvn |- *. cbn [B2Q] in Hvn.
  (* the quotient *)
  unfold truediv, to_float. change (float_of_int 100)
    with (@Ok spec_float (S754_finite false 7036874417766400 (-46))).
  cbn [bind is_zero]. unfold float_div, prec, emax.
  destruct (SFdiv_rounds mn 7036874417766400 en (-46)) as (E & HE & Hq).
  { rewrite (digits_unique mn 53) by lia.
    change (Zpos (digits2_pos 7036874417766400)) with 53. lia. }
  { lia. }
  apply (rounds_ext _ (inject_Z (w * p) / 100)) in Hq.
  2:{ rewrite Hvn.
      assert (inject_Z 7036874417766400 * pow2 (-46) == 100)%Q as -> by reflexivity.
      reflexivity. }
  pose proof (floor_of_rounded_percent _ _ _ (conj Hwp1 Hwp) Hq) as Hfloor.
  destruct Hq as (m & e & M & Hres & _). rewrite Hres in Hfloor |- *.
  cbn [int]. now rewrite int_of_float_floor, Hfloor.
Qed.

Lemma percent_of_int_then {A} (n : Z) (k : Z -> result A) :
  1 <= n < 2 ^ 53 ->
  (q <- truediv (PyInt n) (PyInt 100) ;; v <- int q ;; k v) = k (n / 100).
Proof.
  intros Hn. pose proof (percent_of_int n Hn) as H.
  destruct (truediv (PyInt n) (PyInt 100)) as [q|e]; cbn [bind] in *; [|discriminate].
  destruct (int q) as [v|e]; cbn [bind] in *; [|discriminate].
  now injection H as ->.
Qed.

Lemma percent_of_float_then {A} (w p : Z) (fp : spec_float) (k : Z -> result A) :
  1 <= w -> 1 <= p -> w * p < 2 ^ 53 -> float_of_int p = Ok fp ->
  (a <- mul (PyInt w) (PyFloat fp) ;; b <- truediv a (PyInt 100) ;; v <- int b ;; k v)
    = k (w * p / 100).
Proof.
  intros Hw Hp Hwp Hfp. pose proof (percent_of_float w p fp Hw Hp Hwp Hfp) as H.
  destruct (mul (PyInt w) (PyFloat fp)) as [a|e]; cbn [bind] in *; [|discriminate].
  destruct (truediv a (PyInt 100)) as [b|e]; cbn [bind] in *; [|discriminate].
  destruct (int b) as [v|e]; cbn [bind] in *; [|discriminate].
  now injection H as ->.
Qed.

(** The exact floor is lost once the percentage is a float that is not an
    integer.  With the double nearest to 0.3, a width of 1000 resolves to 3
    although 1000 times that double, over 100, is below 3 (the product rounds
    up to 300).  Reading the percentage as the decimal instead does not help:
    with the double nearest to 33.3, a width of 3000 resolves to 998 while
    3000 * 33.3 / 100 = 999. *)
Lemma calculate_new_size_percentage_counterexample :
  let p03 := float_of_decimal 3 1 in
  let p333 := float_of_decimal 333 1 in
  calculate_new_size (1000, 1000) None None (Some (PyFloat p03)) = Ok (3, 3) /\
  Qfloor (1000 * B2Q p03 / 100) = 2 /\
  calculate_new_size (3000, 3000) None None (Some (PyFloat p333)) = Ok (998, 998) /\
  Qfloor (3000 * (333 # 10) / 100) = 999.
Proof. cbv zeta. repeat split; vm_compute; reflexivity. Qed.

(** X2: for a percentage that is a positive integer [p], given as
    an int or as the float of that integer, and an original size whose
    products with [p] are below [2^53], the result is the exact floor of
    [orig * p / 100] on each axis, clamped to at least 1; width and height
    arguments are ignored. *)
Theorem calculate_new_size_percentage
    (orig_w orig_h p : Z) (width height : option Z) (fp : spec_float) :
  1 <= orig_w -> 1 <= orig_h -> 1 <= p ->
  orig_w * p < 2 ^ 53 -> orig_h * p < 2 ^ 53 ->
  float_of_int p = Ok fp ->
  let resolved := Ok (Z.max 1 (orig_w * p / 100), Z.max 1 (orig_h * p / 100)) in
  calculate_new_size (orig_w, orig_h) width height (Some (PyInt p)) = resolved /\
  calculate_new_size (orig_w, orig_h) width height (Some (PyFloat fp)) = resolved.
Proof.
  intros Hw Hh Hp Hwp Hhp Hfp. cbv zeta.
  assert (1 <= orig_w * p /\ 1 <= orig_h * p) as [Hwp1 Hhp1] by nia.
  unfold calculate_new_size. split.
  - cbn [truthy_num truthy]. assert ((p =? 0) = false) as -> by (apply Z.eqb_neq; lia).
    cbn [negb mul bind].
    rewrite (percent_of_int_then (orig_w * p)) by lia.
    rewrite (percent_of_int_then (orig_h * p)) by lia.
    reflexivity.
  - assert (truthy_num (Some (PyFloat fp)) = Some (PyFloat fp)) as ->.
    { destruct (float_of_int_exact p) as (m & e & Hfp' & _); [nia|].
      rewrite Hfp in Hfp'. injection Hfp' as ->. reflexivity. }
    rewrite (percent_of_float_then orig_w p fp) by assumption.
    rewrite (percent_of_float_then orig_h p fp) by assumption.
    reflexivity.
Qed.

Lemma calculate_new_size_percentage_witness :
  calculate_new_size (1920, 1080) None None (Some (PyInt 75)) = Ok (1440, 810) /\
  calculate_new_size (1920, 1080) None None
    (Some (PyFloat (S754_finite false 5277655813324800 (-46)))) = Ok (1440, 810).
Proof.
  apply (calculate_new_size_percentage 1920 1080 75 None None
           (S754_finite false 5277655813324800 (-46))); try lia.
  reflexivity.
Defined.

(** ** The fixed-width and fixed-height policies *)

Lemma digits_upper (p : positive) (k : Z) :
  0 <= k -> Zpos p < 2 ^ k -> 1 <= Zpos (digits2_pos p) <= k.
Proof.
  intros Hk Hp. pose proof (digits2_bounds p) as Hdig.
  set (d := Zpos (digits2_pos p)) in *. split; [unfold d; lia|].
  destruct (Z_lt_le_dec k d) as [Hgt|]; [|assumption].
  assert (2 ^ k <= 2 ^ (d - 1)) by (apply Z.pow_le_mono_r; lia). lia.
Qed.

Lemma digits_product (m1 m2 : positive) :
  2 ^ 52 <= Zpos m1 < 2 ^ 53 -> 2 ^ 52 <= Zpos m2 < 2 ^ 53 ->
  105 <= Zpos (digits2_pos (m1 * m2)) <= 106.
Proof.
  intros H1 H2. pose proof (digits2_bounds (m1 * m2)) as Hdig.
  set (d := Zpos (digits2_pos (m1 * m2))) in *. rewrite Pos2Z.inj_mul in Hdig.
  assert (2 ^ 104 <= Zpos m1 * Zpos m2 < 2 ^ 106) as Hprod.
  { change (2 ^ 104) with (2 ^ 52 * 2 ^ 52). change (2 ^ 106) with (2 ^ 53 * 2 ^ 53).
    split; [apply Z.mul_le_mono_nonneg|apply Z.mul_lt_mono_nonneg]; lia. }
  split.
  - destruct (Z_lt_le_dec d 105) as [Hlt|]; [|assumption].
    assert (2 ^ d <= 2 ^ 104) by (apply Z.pow_le_mono_r; lia). lia.
  - destruct (Z_lt_le_dec 106 d) as [Hgt|]; [|assumption].
    assert (2 ^ 106 <= 2 ^ (d - 1)) by (apply Z.pow_le_mono_r; lia). lia.
Qed.

(** Two roundings, of the ratio and of the product, move the scaled length
    by less than [1 / den]: its floor is the exact one, or one below when the
    exact quotient is an integer. *)
Lemma floor_of_rounded_scaling (den N : Z) (v2 A Bv : Q) :
  1 <= den -> 1 <= N < 2 ^ 51 ->
  (A * inject_Z den == inject_Z N)%Q ->
  ((Bv - A) * 9007199254740991 <= A /\ (A - Bv) * 9007199254740991 <= A)%Q ->
  ((v2 - Bv) * 9007199254740991 <= Bv /\ (Bv - v2) * 9007199254740991 <= Bv)%Q ->
  N / den - 1 <= Qfloor v2 <= N / den /\
  (N mod den <> 0 -> Qfloor v2 = N / den).
Proof.
  intros Hden HN HA [HB1 HB2] [Hv1 Hv2].
  pose proof (Z.div_mod N den ltac:(lia)) as Hdm.
  pose proof (Z.mod_pos_bound N den ltac:(lia)) as Hf.
  set (K := N / den) in *. set (f := N mod den) in *.
  assert (0 < inject_Z den)%Q as Hden' by (rewrite <- (Zlt_Qlt 0); lia).
  set (u := (/ inject_Z den)%Q).
  assert (inject_Z den * u == 1)%Q as Hu by (unfold u; field; lra).
  assert (0 < u)%Q as Hu0 by (unfold u; apply Qinv_lt_0_compat; assumption).
  assert (A == inject_Z N * u)%Q as HA'.
  { rewrite <- HA, <- Qmult_assoc, Hu. ring. }
  assert (inject_Z N == inject_Z den * inject_Z K + inject_Z f)%Q as HNQ
    by (rewrite Hdm, inject_Z_plus, inject_Z_mult; reflexivity).
  assert (A == inject_Z K + inject_Z f * u)%Q as HAK.
  { rewrite HA', HNQ.
    assert ((inject_Z den * inject_Z K + inject_Z f) * u
            == inject_Z den * u * inject_Z K + inject_Z f * u)%Q as -> by ring.
    rewrite Hu. ring. }
  assert (inject_Z 0 <= inject_Z f /\ inject_Z f + 1 <= inject_Z den)%Q as [Hf0 Hf1].
  { split; [rewrite <- Zle_Qle; lia|].
    change 1%Q with (inject_Z 1). rewrite <- inject_Z_plus, <- Zle_Qle. lia. }
  change (inject_Z 0) with 0%Q in Hf0.
  assert (0 <= inject_Z f * u /\ inject_Z f * u + u <= 1)%Q as [Hfu0 Hfu1].
  { split.
    - apply Qmult_le_0_compat; lra.
    - assert ((inject_Z f + 1) * u <= inject_Z den * u)%Q as H
        by (apply Qmult_le_compat_r; lra).
      rewrite Hu in H. lra. }
  assert (inject_Z N * 18014398509481983 < 81129638414606663681390495662081)%Q as HNc.
  { assert (inject_Z N < inject_Z (2 ^ 51))%Q as H by (rewrite <- Zlt_Qlt; lia).
    change (inject_Z (2 ^ 51)) with 2251799813685248%Q in H. lra. }
  assert (A * 18014398509481983 < 81129638414606663681390495662081 * u)%Q as HAc.
  { rewrite HA'.
    assert (inject_Z N * u * 18014398509481983 == inject_Z N * 18014398509481983 * u)%Q
      as -> by ring.
    apply Qmult_lt_compat_r; assumption. }
  assert (0 <= inject_Z K)%Q as HK0.
  { rewrite <- (Zle_Qle 0). apply Z.div_pos; lia. }
  set (Qf := (inject_Z f * u)%Q) in *. set (QK := inject_Z K) in *.
  assert (QK - 1 <= v2 < QK + 1)%Q as [Hlo Hhi].
  { clearbody Qf QK u. clear - HB1 HB2 Hv1 Hv2 HAK Hfu0 Hfu1 Hu0 HAc HK0. split; lra. }
  assert (K - 1 <= Qfloor v2 <= K) as Hfloor.
  { split.
    - assert (inject_Z K < inject_Z (Qfloor v2 + 2))%Q as H.
      { rewrite inject_Z_plus. fold QK. change (inject_Z 2) with 2%Q.
        pose proof (Qlt_floor v2) as Hfl. rewrite inject_Z_plus in Hfl.
        change (inject_Z 1) with 1%Q in Hfl. clearbody QK. lra. }
      apply inject_Z_lt_inv in H. lia.
    - assert (inject_Z (Qfloor v2) < inject_Z (K + 1))%Q as H.
      { rewrite inject_Z_plus. fold QK. change (inject_Z 1) with 1%Q.
        pose proof (Qfloor_le v2). clearbody QK. lra. }
      apply inject_Z_lt_inv in H. lia. }
  split; [exact Hfloor|].
  intros Hnz. apply Qfloor_unique. fold QK.
  assert (1 <= inject_Z f)%Q as Hf2.
  { change 1%Q with (inject_Z 1). rewrite <- Zle_Qle. lia. }
  assert (u <= Qf)%Q as Hfu2.
  { unfold Qf. assert (1 * u <= inject_Z f * u)%Q as H
      by (apply Qmult_le_compat_r; lra). lra. }
  clearbody Qf QK u. clear - HB1 HB2 Hv1 Hv2 HAK Hfu0 Hfu1 Hu0 HAc HK0 Hfu2.
  split; lra.
Qed.

(** [int(len * (num / den))], the computation of the derived axis. *)
Lemma scaled_axis (den num len : Z) :
  1 <= den < 2 ^ 53 -> 1 <= num -> 1 <= len -> len * num < 2 ^ 51 ->
  exists v,
    (ratio <- truediv (PyInt num) (PyInt den) ;;
     c <- mul (PyInt len) ratio ;; int c) = Ok v /\
    len * num / den - 1 <= v <= len * num / den /\
    ((len * num) mod den <> 0 -> v = len * num / den).
Proof.
  intros Hden Hnum Hlen HN.
  assert (num < 2 ^ 51 /\ len < 2 ^ 51 /\ 1 <= len * num) as (Hnum' & Hlen' & HN1) by nia.
  destruct den as [|pd|pd]; try lia. destruct num as [|pn|pn]; try lia.
  (* the ratio *)
  unfold truediv, float_div, exact_of_Z, prec, emax. cbn [Z.eqb].
  pose proof (digits_upper pd 53 ltac:(lia) ltac:(lia)) as Hdd.
  pose proof (digits_upper pn 51 ltac:(lia) ltac:(lia)) as Hdn.
  destruct (SFdiv_rounds pn pd 0 0) as (E1 & HE1 & Hr1); [lia|lia|].
  apply (rounds_ext _ (inject_Z (Zpos pn) / inject_Z (Zpos pd))) in Hr1.
  2:{ change (pow2 0) with 1%Q. now rewrite !Qmult_1_r. }
  pose proof (rounds_error _ _ _ Hr1) as (HX1 & Herr1a & Herr1b).
  destruct Hr1 as (m1 & e1 & _ & Hres1 & Hm1 & He1 & _).
  rewrite Hres1 in *. cbn [is_infinite bind]. cbn [B2Q] in Herr1a, Herr1b.
  (* the product *)
  destruct (float_of_int_exact len ltac:(lia)) as (m0 & e0 & Hf0 & Hm0 & He0 & Hv0).
  unfold mul, to_float. rewrite Hf0. cbn [bind].
  pose proof (digits_product m0 m1 Hm0 Hm1) as Hd.
  pose proof (SFmul_rounds m0 m1 e0 e1) as Hr2. cbv zeta in Hr2.
  specialize (Hr2 ltac:(lia) ltac:(lia)).
  set (v1 := (inject_Z (Zpos m1) * pow2 e1)%Q) in *.
  apply (rounds_ext _ (inject_Z len * v1)) in Hr2; [|now rewrite Hv0].
  pose proof (rounds_error _ _ _ Hr2) as (_ & Herr2a & Herr2b).
  destruct Hr2 as (m2 & e2 & _ & Hres2 & _).
  unfold float_mul, prec, emax. rewrite Hres2 in *. cbn [int].
  rewrite int_of_float_floor. eexists. split; [reflexivity|].
  (* the two roundings *)
  set (v2 := B2Q (S754_finite false m2 e2)) in *.
  set (X1 := (inject_Z (Zpos pn) / inject_Z (Zpos pd))%Q) in *.
  assert (0 < inject_Z len)%Q as Hlen0 by (rewrite <- (Zlt_Qlt 0); lia).
  apply (floor_of_rounded_scaling (Zpos pd) (len * Zpos pn) v2
           (inject_Z len * X1) (inject_Z len * v1)); try lia; try (split; assumption).
  - unfold X1. rewrite inject_Z_mult. field.
    assert (0 < inject_Z (Zpos pd))%Q by (rewrite <- (Zlt_Qlt 0); lia). lra.
  - split.
    + assert ((inject_Z len * v1 - inject_Z len * X1) * 9007199254740991
              == inject_Z len * ((v1 - X1) * 9007199254740991))%Q as -> by ring.
      apply Qmult_le_l; assumption.
    + assert ((inject_Z len * X1 - inject_Z len * v1) * 9007199254740991
              == inject_Z len * ((X1 - v1) * 9007199254740991))%Q as -> by ring.
      apply Qmult_le_l; assumption.
Qed.

(** X3: fixed width: the resolved width is the requested one; the height is the
    exact floor of [orig_h * w / orig_w], or one below it when that quotient
    is an integer, clamped to at least 1. *)
Theorem calculate_new_size_fixed_width (orig_w orig_h w : Z) :
  1 <= orig_w < 2 ^ 53 -> 1 <= orig_h -> 1 <= w -> orig_h * w < 2 ^ 51 ->
  exists new_h,
    calculate_new_size (orig_w, orig_h) (Some w) None None = Ok (w, new_h) /\
    Z.max 1 (orig_h * w / orig_w - 1) <= new_h <= Z.max 1 (orig_h * w / orig_w) /\
    ((orig_h * w) mod orig_w <> 0 -> new_h = Z.max 1 (orig_h * w / orig_w)).
Proof.
  intros Hw0 Hh0 Hw HN.
  destruct (scaled_axis orig_w w orig_h Hw0 Hw Hh0 HN) as (v & Hrun & Hv & Hexact).
  unfold calculate_new_size. cbn [truthy_num truthy_int].
  assert ((w =? 0) = false) as -> by (apply Z.eqb_neq; lia).
  destruct (truediv (PyInt w) (PyInt orig_w)) as [ratio|e]; cbn [bind] in *; [|discriminate].
  destruct (mul (PyInt orig_h) ratio) as [c|e]; cbn [bind] in *; [|discriminate].
  rewrite Hrun. cbn [bind]. exists (Z.max 1 v).
  replace (Z.max 1 w) with w by lia. split; [reflexivity|]. split; [lia|].
  intros Hnz. now rewrite (Hexact Hnz).
Qed.

Lemma calculate_new_size_fixed_width_witness :
  exists new_h,
    calculate_new_size (1920, 1080) (Some 800) None None = Ok (800, new_h) /\
    Z.max 1 (1080 * 800 / 1920 - 1) <= new_h <= Z.max 1 (1080 * 800 / 1920) /\
    ((1080 * 800) mod 1920 <> 0 -> new_h = Z.max 1 (1080 * 800 / 1920)).
Proof.
  apply (calculate_new_size_fixed_width 1920 1080 800); lia.
Defined.

(** X4: fixed height, the same on the other axis: the resolved height is
    the requested one; the width is the exact floor of [orig_w * h / orig_h],
    or one below it when that quotient is an integer, clamped to at least 1. *)
Theorem calculate_new_size_fixed_height (orig_w orig_h h : Z) :
  1 <= orig_h < 2 ^ 53 -> 1 <= orig_w -> 1 <= h -> orig_w * h < 2 ^ 51 ->
  exists new_w,
    calculate_new_size (orig_w, orig_h) None (Some h) None = Ok (new_w, h) /\
    Z.max 1 (orig_w * h / orig_h - 1) <= new_w <= Z.max 1 (orig_w * h / orig_h) /\
    ((orig_w * h) mod orig_h <> 0 -> new_w = Z.max 1 (orig_w * h / orig_h)).
Proof.
  intros Hh0 Hw0 Hh HN.
  destruct (scaled_axis orig_h h orig_w Hh0 Hh Hw0 HN) as (v & Hrun & Hv & Hexact).
  unfold calculate_new_size. cbn [truthy_num truthy_int].
  assert ((h =? 0) = false) as -> by (apply Z.eqb_neq; lia).
  destruct (truediv (PyInt h) (PyInt orig_h)) as [ratio|e]; cbn [bind] in *; [|discriminate].
  destruct (mul (PyInt orig_w) ratio) as [c|e]; cbn [bind] in *; [|discriminate].
  rewrite Hrun. cbn [bind]. exists (Z.max 1 v).
  replace (Z.max 1 h) with h by lia. split; [reflexivity|]. split; [lia|].
  intros Hnz. now rewrite (Hexact Hnz).
Qed.

Lemma calculate_new_size_fixed_height_witness :
  exists new_w,
    calculate_new_size (4032, 3024) None (Some 1000) None = Ok (new_w, 1000) /\
    Z.max 1 (4032 * 1000 / 3024 - 1) <= new_w <= Z.max 1 (4032 * 1000 / 3024) /\
    ((4032 * 1000) mod 3024 <> 0 -> new_w = Z.max 1 (4032 * 1000 / 3024)).
Proof.
  apply (calculate_new_size_fixed_height 4032 3024 1000); lia.
Defined.

(** The bound of one below is reached: a 49 x 49 original at width 2. *)
Example calculate_new_size_fixed_width_one_below :
  calculate_new_size (49, 49) (Some 2) None None = Ok (2, 1) /\ 49 * 2 / 49 = 2.
Proof. split; reflexivity. Qed.

(** X1: whatever the policy and the original size, a size that is returned has
    both components at least 1. *)
Theorem calculate_new_size_at_least_one
    (original_size : Z * Z) (width height : option Z) (percentage : option num)
    (new_width new_height : Z) :
  calculate_new_size original_size width height percentage = Ok (new_width, new_height) ->
  1 <= new_width /\ 1 <= new_height.
Proof.
  destruct original_size as [orig_width orig_height]. unfold calculate_new_size.
  match goal with
  | |- bind ?c _ = _ -> _ => destruct c as [[nw nh]|e]; cbn [bind]; [|discriminate]
  end.
  intros [= <- <-]. lia.
Qed.

Lemma calculate_new_size_at_least_one_witness :
  1 <= 1 /\ 1 <= 600.
Proof.
  apply (calculate_new_size_at_least_one (640, 480) (Some (-5)) (Some 600) None 1 600).
  reflexivity.
Defined.

(** ** FilterChain: cancellation, skipped entries, shapes *)

Lemma apply_filters_flag_set
    (filter_config : list (string * filter_params)) (image : ndarray) (s : state) :
  should_stop s = true ->
  fst (apply_filters image filter_config s) = Ok image /\
  should_stop (snd (apply_filters image filter_config s)) = true.
Proof.
  revert s. induction filter_config as [|[filter_name params] rest IH]; intros s Hs;
    cbn [apply_filters].
  - cbn. auto.
  - destruct (get (enabled params) false); [|now apply IH].
    destruct (dict_get filters filter_name) as [apply_func|]; [|now apply IH].
    unfold mbind, read_should_stop. rewrite (acquire_stopped s Hs). cbn [negb].
    apply IH. now apply acquire_stopped.
Qed.

(** X5: once the flag is set, [apply_filters] applies nothing: it returns the
    buffer it was given, whatever the configuration, and the flag stays set. *)
Theorem apply_filters_stopped
    (filter_config : list (string * filter_params)) (image : ndarray) (s : state) :
  should_stop s = true ->
  fst (apply_filters image filter_config s) = Ok image /\
  should_stop (snd (apply_filters image filter_config s)) = true.
Proof.
  intros Hs. destruct (apply_filters_flag_set filter_config image s Hs) as [Himage Hflag].
  split; [exact Himage|exact Hflag].
Qed.

Lemma apply_filters_stopped_witness :
  fst (apply_filters (bgr 4 6 "a.png") [("blur", on); ("grayscale", on)]
         (snd (stop_processing idle))) = Ok (bgr 4 6 "a.png") /\
  should_stop (snd (apply_filters (bgr 4 6 "a.png") [("blur", on); ("grayscale", on)]
                      (snd (stop_processing idle)))) = true.
Proof.
  apply (apply_filters_stopped [("blur", on); ("grayscale", on)] (bgr 4 6 "a.png")
           (snd (stop_processing idle))).
  reflexivity.
Defined.

(** X6: an entry is applied only when it is enabled and its name is a key of the
    dispatch table: the other entries can be dropped from the configuration
    without changing the result or the state. *)
Theorem apply_filters_skips_disabled_and_unknown
    (filter_config : list (string * filter_params)) (image : ndarray) (s : state) :
  let applies (entry : string * filter_params) :=
    get (enabled (snd entry)) false &&
    match dict_get filters (fst entry) with Some _ => true | None => false end in
  apply_filters image filter_config s
  = apply_filters image (filter applies filter_config) s.
Proof.
  cbv zeta. revert image s.
  induction filter_config as [|[filter_name params] rest IH]; intros image s; [reflexivity|].
  cbn [filter fst snd].
  destruct (get (enabled params) false) eqn:Hen; cbn [andb].
  - destruct (dict_get filters filter_name) as [apply_func|] eqn:Hget.
    + cbn [apply_filters]. rewrite Hen, Hget. unfold mbind.
      destruct (read_should_stop s) as [[stopped|e] s1]; [|reflexivity].
      destruct (negb stopped); [|apply IH].
      destruct (lift (apply_func image params) s1) as [[image'|e] s2]; [apply IH|reflexivity].
    + cbn [apply_filters]. rewrite Hen, Hget. apply IH.
  - cbn [apply_filters]. rewrite Hen. apply IH.
Qed.

Lemma same_shape_refl (a b : ndarray) : shape a = shape b -> cv2.same_shape a b = true.
Proof.
  intros H. unfold cv2.same_shape.
  destruct (list_eq_dec Z.eq_dec (shape a) (shape b)); [reflexivity|contradiction].
Qed.

Lemma add_shape src value out : cv2.add src value = Ok out -> shape out = shape src.
Proof.
  unfold cv2.add.
  destruct (match value with PyInt z => _ | PyFloat _ => _ end); [|discriminate].
  destruct (shape src) as [|h [|w [|c sh]]]; try (intros [= <-]; reflexivity).
  destruct (((h =? 1) || (h =? 4)) && (w =? 1)); [discriminate|].
  intros [= <-]; reflexivity.
Qed.

Lemma flip_shape src flipCode out : cv2.flip src flipCode = Ok out -> shape out = shape src.
Proof.
  unfold cv2.flip.
  destruct ((- 2 ^ 31 <=? flipCode) && (flipCode <? 2 ^ 31)); [|discriminate].
  intros [= <-]; reflexivity.
Qed.

Lemma warpAffine_shape src center angle w h out :
  cv2.warpAffine src center angle (w, h) = Ok out ->
  match shape src with
  | [_; _] => shape out = [h; w]
  | [_; _; c] => shape out = [h; w; c]
  | _ => False
  end.
Proof.
  unfold cv2.warpAffine. destruct (to_float angle); cbn [bind]; [|discriminate].
  destruct ((1 <=? w) && (1 <=? h)); [|discriminate].
  destruct (shape src) as [|sh [|sw [|c [|x l]]]]; try discriminate.
  - destruct ((1 <=? sh) && (sh <? 32767) && (1 <=? sw) && (sw <? 32767)); [|discriminate].
    intros [= <-]; reflexivity.
  - destruct ((1 <=? sh) && (sh <? 32767) && (1 <=? sw) && (sw <? 32767)); [|discriminate].
    intros [= <-]; reflexivity.
Qed.

(** Each stage other than grayscale, when it returns, returns a buffer of the
    shape it was given: three channels stay three channels. *)
Lemma apply_filter_keeps_shape
    (t : FilterType) (image : ndarray) (kwargs : filter_params) (h w : Z) (out : ndarray) :
  t <> GRAYSCALE -> shape image = [h; w; 3] ->
  apply_filter t image kwargs = Ok out -> shape out = [h; w; 3].
Proof.
  intros Ht Hs. destruct image as [sh px]. cbn [shape] in Hs. subst sh.
  destruct t; try contradiction; cbn [apply_filter].
  - intros [= <-]. reflexivity.
  - intros [= <-]. reflexivity.
  - intros [= <-]. reflexivity.
  - unfold apply_brightness. cbn -[cv2.same_shape cv2.add].
    change (Pos.to_nat 3) with 3%nat. cbn -[cv2.same_shape cv2.add].
    destruct (cv2.add _ _) as [v|e] eqn:Hadd; cbn -[cv2.same_shape]; [|discriminate].
    apply add_shape in Hadd. cbn [shape] in Hadd.
    rewrite !same_shape_refl by (cbn; auto). cbn. intros [= <-]. reflexivity.
  - unfold apply_contrast, cv2.clahe_apply. cbn -[cv2.same_shape to_float].
    change (Pos.to_nat 3) with 3%nat. cbn -[cv2.same_shape to_float].
    destruct (to_float _) as [limit|e]; cbn -[cv2.same_shape]; [|discriminate].
    rewrite !same_shape_refl by reflexivity. cbn. intros [= <-]. reflexivity.
  - unfold apply_rotate, shape_hw. cbn [shape bind data]. intros H.
    apply warpAffine_shape in H. exact H.
  - unfold apply_flip. intros H. apply flip_shape in H. exact H.
Qed.

(** On a single-channel buffer the stages that return keep it as it is; the
    colour conversions of the others refuse it. *)
Lemma apply_filter_plane
    (t : FilterType) (image : ndarray) (kwargs : filter_params) (h w : Z) (out : ndarray) :
  shape image = [h; w] ->
  apply_filter t image kwargs = Ok out -> shape out = [h; w].
Proof.
  intros Hs. destruct image as [sh px]. cbn [shape] in Hs. subst sh.
  destruct t; cbn [apply_filter]; try discriminate.
  - intros [= <-]. reflexivity.
  - intros [= <-]. reflexivity.
  - unfold apply_rotate, shape_hw. cbn [shape bind data]. intros H.
    apply warpAffine_shape in H. exact H.
  - unfold apply_flip. intros H. apply flip_shape in H. exact H.
Qed.

Lemma apply_grayscale_plane (image : ndarray) (kwargs : filter_params) (h w : Z) (out : ndarray) :
  shape image = [h; w; 3] -> apply_grayscale image kwargs = Ok out -> shape out = [h; w].
Proof.
  intros Hs. unfold apply_grayscale, cv2.cvtColor. rewrite Hs. cbn. intros [= <-]. reflexivity.
Qed.

(** X7: every filter but grayscale leaves the shape of a 3-channel buffer as
    it is: the call raises, or the buffer it returns has the height, the
    width and the three channels of the one it was given. *)
Theorem filters_keep_shape (image : ndarray) (kwargs : filter_params) (h w : Z) :
  shape image = [h; w; 3] -> 1 <= h -> 1 <= w ->
  let keeps (f : filter_fn) :=
    forall out, f image kwargs = Ok out -> shape out = [h; w; 3] in
  keeps apply_blur /\ keeps apply_sharpen /\ keeps apply_edge_detect /\
  keeps apply_brightness /\ keeps apply_contrast /\ keeps apply_rotate /\
  keeps apply_flip.
Proof.
  intros Hs Hh Hw. cbv zeta.
  pose proof (fun t Ht out => apply_filter_keeps_shape t image kwargs h w out Ht Hs) as H.
  repeat split; intros out.
  - apply (H BLUR); discriminate.
  - apply (H SHARPEN); discriminate.
  - apply (H EDGE_DETECT); discriminate.
  - apply (H BRIGHTNESS); discriminate.
  - apply (H CONTRAST); discriminate.
  - apply (H ROTATE); discriminate.
  - apply (H FLIP); discriminate.
Qed.

Lemma filters_keep_shape_witness :
  exists edges rotated,
    apply_edge_detect (bgr 4 6 "a.png") on = Ok edges /\ shape edges = [4; 6; 3] /\
    apply_rotate (bgr 4 6 "a.png") on = Ok rotated /\ shape rotated = [4; 6; 3].
Proof.
  destruct (filters_keep_shape (bgr 4 6 "a.png") on 4 6 eq_refl ltac:(lia) ltac:(lia))
    as (_ & _ & Hedge & _ & _ & Hrotate & _).
  eexists _, _. split; [reflexivity|]. split; [apply Hedge; reflexivity|].
  split; [reflexivity|]. apply Hrotate; reflexivity.
Defined.


Lemma filter_of_name_grayscale filter_name :
  filter_of_name filter_name = Some GRAYSCALE -> filter_name = "grayscale".
Proof.
  unfold filter_of_name. cbn [map dict_get FilterType_value].
  destruct (String.eqb_spec "grayscale" filter_name) as [<-|_]; [reflexivity|].
  repeat (destruct (String.eqb _ filter_name); [discriminate|]). discriminate.
Qed.

Lemma apply_filters_keeps_shape
    (filter_config : list (string * filter_params)) (h w : Z) :
  Forall (fun entry => fst entry = "grayscale" -> get (enabled (snd entry)) false = false)
    filter_config ->
  forall image s out s',
    shape image = [h; w; 3] ->
    apply_filters image filter_config s = (Ok out, s') -> shape out = [h; w; 3].
Proof.
  intros Hcfg.
  induction Hcfg as [|[filter_name params] rest Hentry _ IH]; intros image s out s' Hs;
    cbn [apply_filters].
  - intros [= <- _]. exact Hs.
  - cbn [fst snd] in Hentry.
    destruct (get (enabled params) false) eqn:Hen; [|now apply IH].
    rewrite dispatch_table.
    destruct (filter_of_name filter_name) as [t|] eqn:Hname; cbn [option_map]; [|now apply IH].
    unfold mbind, read_should_stop.
    destruct (negb (should_stop (acquire s))); [|now apply IH].
    assert (t <> GRAYSCALE) as Ht.
    { intros ->. apply filter_of_name_grayscale in Hname. specialize (Hentry Hname).
      discriminate. }
    unfold lift. destruct (apply_filter t image params) as [image'|e] eqn:Hout; [|discriminate].
    apply IH. exact (apply_filter_keeps_shape t image params h w image' Ht Hs Hout).
Qed.

(** Whatever the configuration, the chain turns a 3-channel buffer into a
    buffer of the same height and width, of three channels or, once a
    grayscale stage has run, of one. *)
Lemma apply_filters_shape
    (filter_config : list (string * filter_params)) (h w : Z) :
  forall image s out s',
    shape image = [h; w; 3] \/ shape image = [h; w] ->
    apply_filters image filter_config s = (Ok out, s') ->
    shape out = [h; w; 3] \/ shape out = [h; w].
Proof.
  induction filter_config as [|[filter_name params] rest IH]; intros image s out s' Hs;
    cbn [apply_filters].
  - intros [= <- _]. exact Hs.
  - destruct (get (enabled params) false); [|now apply IH].
    rewrite dispatch_table.
    destruct (filter_of_name filter_name) as [t|]; cbn [option_map]; [|now apply IH].
    unfold mbind, read_should_stop.
    destruct (negb (should_stop (acquire s))); [|now apply IH].
    unfold lift. destruct (apply_filter t image params) as [image'|e] eqn:Hout; [|discriminate].
    apply IH. destruct Hs as [Hs|Hs].
    + assert (t = GRAYSCALE \/ t <> GRAYSCALE) as [->|Ht]
        by (destruct t; auto; right; discriminate).
      * right. exact (apply_grayscale_plane image params h w image' Hs Hout).
      * left. exact (apply_filter_keeps_shape t image params h w image' Ht Hs Hout).
    + right. exact (apply_filter_plane t image params h w image' Hs Hout).
Qed.

(** X8: without an enabled grayscale entry the chain leaves the shape of a
    3-channel buffer as it is: whenever it returns, and whether and whenever
    the cancellation flag gets set, the buffer it returns has the height,
    the width and the three channels of the one it got. *)
Theorem apply_filters_without_grayscale
    (filter_config : list (string * filter_params)) (image : ndarray) (s : state)
    (h w : Z) :
  shape image = [h; w; 3] -> 1 <= h -> 1 <= w ->
  Forall (fun entry => fst entry = "grayscale" -> get (enabled (snd entry)) false = false)
    filter_config ->
  forall out, fst (apply_filters image filter_config s) = Ok out -> shape out = [h; w; 3].
Proof.
  intros Hs Hh Hw Hcfg out Hrun.
  destruct (apply_filters image filter_config s) as [r s'] eqn:Hchain.
  cbn [fst] in Hrun. subst r.
  exact (apply_filters_keeps_shape filter_config h w Hcfg image s out s' Hs Hchain).
Qed.

Lemma apply_filters_without_grayscale_witness :
  exists out,
    fst (apply_filters (bgr 4 6 "a.png")
           [("edge_detect", on); ("grayscale", off); ("rotate", on)] idle) = Ok out /\
    shape out = [4; 6; 3].
Proof.
  eexists. split; [reflexivity|].
  apply (apply_filters_without_grayscale
           [("edge_detect", on); ("grayscale", off); ("rotate", on)]
           (bgr 4 6 "a.png") idle 4 6); [reflexivity|lia|lia| |reflexivity].
  repeat constructor; discriminate.
Defined.


(** X9: after an applied grayscale stage, edge detection, brightness and contrast
    reject the single-channel buffer: with the flag clear, a configuration
    that enables grayscale and then one of them raises OpenCV's error. *)
Theorem grayscale_then_colour_filter_raises
    (second : FilterType) (image : ndarray) (p1 p2 : filter_params) (s : state)
    (h w c : Z) :
  In second [EDGE_DETECT; BRIGHTNESS; CONTRAST] ->
  shape image = [h; w; c] -> c = 3 \/ c = 4 ->
  get (enabled p1) false = true -> get (enabled p2) false = true ->
  should_stop s = false -> pending_stop s = None ->
  fst (apply_filters image
         [(FilterType_value GRAYSCALE, p1); (FilterType_value second, p2)] s)
  = Raise (CvError "cvtColor").
Proof.
  intros Hsecond Hs Hc Hen1 Hen2 Hstop Hpending.
  destruct image as [sh px]. cbn [shape] in Hs. subst sh.
  assert (acquire s = s) as Hacq by (unfold acquire; now rewrite Hpending).
  assert (cv2.is_bgr c = true) as Hbgr by (destruct Hc; subst; reflexivity).
  assert (apply_grayscale {| shape := [h; w; c]; data := px |} p1
          = Ok {| shape := [h; w]; data := CvtColor BGR2GRAY px |}) as Hgray.
  { unfold apply_grayscale, cv2.cvtColor. cbn [shape data]. now rewrite Hbgr. }
  cbn [apply_filters]. rewrite Hen1, Hen2.
  change (dict_get filters (FilterType_value GRAYSCALE)) with (Some apply_grayscale).
  unfold mbind, read_should_stop, lift. rewrite Hacq, Hstop. cbn [negb].
  rewrite Hgray.
  destruct Hsecond as [<-|[<-|[<-|[]]]];
    cbn [dict_get filters FilterType_value]; cbn -[acquire];
    rewrite Hacq, Hstop; reflexivity.
Qed.

Lemma grayscale_then_colour_filter_raises_witness :
  fst (apply_filters (bgr 4 6 "a.png")
         [(FilterType_value GRAYSCALE, on); (FilterType_value BRIGHTNESS, on)] idle)
  = Raise (CvError "cvtColor").
Proof.
  apply (grayscale_then_colour_filter_raises BRIGHTNESS (bgr 4 6 "a.png") on on idle 4 6 3);
    try reflexivity.
  - right. left. reflexivity.
  - left. reflexivity.
Defined.

(** ** BatchEngine: what one file does to the state *)

Lemma acquire_env s : env (acquire s) = env s.
Proof. unfold acquire. destruct (pending_stop s) as [[|n]|]; reflexivity. Qed.

Lemma apply_filters_env filter_config : forall image s,
  env (snd (apply_filters image filter_config s)) = env s.
Proof.
  induction filter_config as [|[filter_name params] rest IH]; intros image s;
    cbn [apply_filters]; [reflexivity|].
  destruct (get (enabled params) false); [|apply IH].
  destruct (dict_get filters filter_name) as [apply_func|]; [|apply IH].
  unfold mbind, read_should_stop, lift.
  destruct (negb (should_stop (acquire s))).
  - destruct (apply_func image params) as [image'|e].
    + rewrite IH. apply acquire_env.
    + apply acquire_env.
  - rewrite IH. apply acquire_env.
Qed.

Lemma resize_frame src dsize s : snd (cv2.resize src dsize s) = s.
Proof. unfold cv2.resize. destruct dsize as [w h]. reflexivity. Qed.

Lemma process_image_effect self image_path size filter_config prefix s :
  exists ok s',
    process_image self image_path size filter_config prefix s = (Ok ok, s') /\
    (should_stop s = true -> should_stop s' = true) /\
    incl (decoded s) (decoded s') /\
    if ok then
      exists processed,
        written s' = written s ++ [(output_path self image_path prefix, processed)] /\
        forall p, p <> output_path self image_path prefix -> files s' p = files s p
    else written s' = written s /\ files s' = files s.
Proof.
  unfold process_image, try_except, mbind, read_should_stop.
  destruct (acquire_frame s) as (Hf & Hd & Hw). pose proof (acquire_stopped s) as Hst.
  set (s0 := acquire s) in *.
  destruct (should_stop s0) eqn:Hstop0.
  { exists false, s0. unfold ret. split; [reflexivity|]. split; [auto|].
    split; [rewrite Hd; apply incl_refl|auto]. }
  assert (should_stop s = true -> False) as Hclear by (intros H; apply Hst in H; congruence).
  set (s1 := fs.log_decode (str image_path) s0).
  assert (incl (decoded s) (decoded s1)) as Hincl
    by (cbn; rewrite Hd; apply incl_appl, incl_refl).
  unfold fs.imread. fold s1.
  destruct (files s0 (str image_path)) as [[image| |]|].
  - unfold lift.
    destruct (shape_hw image) as [[h w]|e].
    2:{ exists false, s1. cbn. rewrite Hw, Hf. repeat split; solve [auto|tauto]. }
    destruct (calculate_new_size (w, h) (sp_width size) (sp_height size) (sp_percentage size))
      as [new_size|e].
    2:{ exists false, s1. cbn. rewrite Hw, Hf. repeat split; solve [auto|tauto]. }
    pose proof (resize_frame image new_size s1) as Hres.
    destruct (cv2.resize image new_size s1) as [[resized|e] s1']; cbn [snd] in Hres; subst s1'.
    2:{ exists false, s1. cbn. rewrite Hw, Hf. repeat split; solve [auto|tauto]. }
    pose proof (apply_filters_frame filter_config resized s1) as (Hf' & Hd' & Hw' & _).
    destruct (apply_filters resized filter_config s1) as [[processed|e] s2];
      cbn [fst snd] in *.
    + fold (output_path self image_path prefix). unfold fs.imwrite.
      destruct (fs.has_encoder (encoders (env s2)) (output_path self image_path prefix)
                && fs.writable processed).
      * eexists true, _. unfold ret. split; [reflexivity|]. cbn.
        split; [tauto|]. split; [rewrite Hd'; exact Hincl|].
        exists processed. rewrite Hw'. cbn. rewrite Hw. split; [reflexivity|].
        intros p Hp. destruct (String.eqb_spec p (output_path self image_path prefix));
          [contradiction|]. now rewrite Hf', <- Hf.
      * exists false, s2. unfold ret. split; [reflexivity|]. split; [tauto|].
        split; [rewrite Hd'; exact Hincl|]. rewrite Hw', Hf'. cbn. auto.
    + exists false, s2. unfold ret. split; [reflexivity|]. split; [tauto|].
      split; [rewrite Hd'; exact Hincl|]. rewrite Hw', Hf'. cbn. auto.
  - exists false, s1. cbn. rewrite Hw, Hf. repeat split; solve [auto|tauto].
  - exists false, s1. cbn. rewrite Hw, Hf. repeat split; solve [auto|tauto].
  - exists false, s1. cbn. rewrite Hw, Hf. repeat split; solve [auto|tauto].
Qed.

(** X10: [process_image] never raises.  When it reports a failure, no call of
    [imwrite] has returned and no file has changed.  When it reports a
    success, exactly one call of [imwrite] has returned, for the output folder
    joined with prefix, stem and suffix of the input, and no other path of
    the file system has changed; what that call returned is not looked at. *)
Theorem process_image_writes_at_most_one_file
    (self : ImageResizer) (image_path : Path) (size : size_params)
    (filter_config : list (string * filter_params)) (prefix : string) (s : state) :
  let run := process_image self image_path size filter_config prefix s in
  let target := output_path self image_path prefix in
  (fst run = Ok false /\ written (snd run) = written s /\ files (snd run) = files s) \/
  (fst run = Ok true /\
   (exists processed, written (snd run) = written s ++ [(target, processed)]) /\
   forall p, p <> target -> files (snd run) p = files s p).
Proof.
  cbv zeta.
  destruct (process_image_effect self image_path size filter_config prefix s)
    as (ok & s' & Hrun & _ & _ & Heffect).
  rewrite Hrun. cbn [fst snd]. destruct ok.
  - right. destruct Heffect as (processed & Hw & Hf).
    split; [reflexivity|]. split; [exists processed; exact Hw|exact Hf].
  - left. split; [reflexivity|exact Heffect].
Qed.

Lemma calculate_new_size_clamped original_size width height percentage nw nh :
  calculate_new_size original_size width height percentage = Ok (nw, nh) ->
  1 <= nw /\ 1 <= nh.
Proof.
  destruct original_size as [orig_width orig_height]. unfold calculate_new_size.
  match goal with
  | |- bind ?c _ = _ -> _ => destruct c as [[a b]|e]; cbn [bind]; [|discriminate]
  end.
  intros [= <- <-]. lia.
Qed.

(** With the flag clear and no [stop()] on its way, the chain neither reads
    nor changes anything but the flag it finds clear. *)
Lemma apply_filters_undisturbed filter_config : forall image s,
  should_stop s = false -> pending_stop s = None ->
  snd (apply_filters image filter_config s) = s /\
  forall s2, should_stop s2 = false -> pending_stop s2 = None ->
             fst (apply_filters image filter_config s2)
             = fst (apply_filters image filter_config s).
Proof.
  induction filter_config as [|[filter_name params] rest IH]; intros image s Hstop Hpending;
    cbn [apply_filters].
  - split; [reflexivity|]. intros s2 _ _. reflexivity.
  - destruct (get (enabled params) false); [|now apply IH].
    destruct (dict_get filters filter_name) as [apply_func|]; [|now apply IH].
    assert (forall s0, should_stop s0 = false -> pending_stop s0 = None -> acquire s0 = s0)
      as Hacq by (intros s0 _ H0; unfold acquire; now rewrite H0).
    unfold mbind, read_should_stop, lift. rewrite (Hacq s Hstop Hpending), Hstop. cbn [negb].
    destruct (apply_func image params) as [image'|e].
    + destruct (IH image' s Hstop Hpending) as [Hsnd Hfst]. split; [exact Hsnd|].
      intros s2 Hstop2 Hpending2. rewrite (Hacq s2 Hstop2 Hpending2), Hstop2. cbn [negb].
      now apply Hfst.
    + split; [reflexivity|].
      intros s2 Hstop2 Hpending2. rewrite (Hacq s2 Hstop2 Hpending2), Hstop2. reflexivity.
Qed.

Lemma resize_fits (image : ndarray) (s : state) (h w new_w new_h : Z) :
  shape image = [h; w; 3] ->
  1 <= new_w < 2 ^ 31 -> 1 <= new_h < 2 ^ 31 -> new_h * new_w * 3 <= memory (env s) ->
  cv2.resize image (new_w, new_h) s
  = (Ok {| shape := [new_h; new_w; 3]; data := Resize (new_w, new_h) (data image) |}, s).
Proof.
  intros Hshape Hw Hh Hmem. unfold cv2.resize. rewrite Hshape.
  assert ((1 <=? new_w) && (new_w <? 2 ^ 31) && (1 <=? new_h) && (new_h <? 2 ^ 31) = true)
    as ->.
  { rewrite !andb_true_iff, !Z.leb_le, !Z.ltb_lt. lia. }
  assert ((new_h * new_w * 3 <=? memory (env s)) = true) as -> by now apply Z.leb_le.
  reflexivity.
Qed.

(** X11: the success path.  With the flag clear and no [stop()] on its way, a
    file that decodes to a 3-channel buffer, a size that resolves within
    OpenCV's range and that the host can allocate, a chain that returns on
    the resized buffer and an output name that has a writer,
    [process_image] reports a success after one call of [imwrite], for the
    buffer the chain returned, of the resolved height and width.  It does
    so whatever becomes of the file: it reports the success of a write that
    was refused and left the file system as it was. *)
Theorem process_image_success
    (self : ImageResizer) (image_path : Path) (size : size_params)
    (filter_config : list (string * filter_params)) (prefix : string) (s : state)
    (image processed : ndarray) (h w new_w new_h : Z) :
  should_stop s = false -> pending_stop s = None ->
  files s (str image_path) = Some (ImageFile image) ->
  shape image = [h; w; 3] ->
  calculate_new_size (w, h) (sp_width size) (sp_height size) (sp_percentage size)
    = Ok (new_w, new_h) ->
  new_w < 2 ^ 31 -> new_h < 2 ^ 31 -> new_h * new_w * 3 <= memory (env s) ->
  fst (apply_filters
         {| shape := [new_h; new_w; 3]; data := Resize (new_w, new_h) (data image) |}
         filter_config s) = Ok processed ->
  fs.has_encoder (encoders (env s)) (output_path self image_path prefix) = true ->
  let target := output_path self image_path prefix in
  exists s',
    process_image self image_path size filter_config prefix s = (Ok true, s') /\
    (shape processed = [new_h; new_w; 3] \/ shape processed = [new_h; new_w]) /\
    written s' = written s ++ [(target, processed)] /\
    (store (env s) target processed = Stored ->
     files s' target = Some (ImageFile (fs.reloaded processed))) /\
    (store (env s) target processed = Refused -> forall p, files s' p = files s p).
Proof.
  intros Hstop Hpending Hfile Hshape Hsize Hw31 Hh31 Hmem Hchain Henc. cbv zeta.
  destruct (calculate_new_size_clamped _ _ _ _ _ _ Hsize) as [Hw1 Hh1].
  assert (acquire s = s) as Hacq by (unfold acquire; now rewrite Hpending).
  set (s1 := fs.log_decode (str image_path) s).
  set (resized := {| shape := [new_h; new_w; 3];
                     data := Resize (new_w, new_h) (data image) |}) in *.
  destruct (apply_filters_undisturbed filter_config resized s1 Hstop Hpending)
    as [Hsnd Hfst].
  specialize (Hfst s Hstop Hpending). rewrite Hchain in Hfst.
  destruct (apply_filters resized filter_config s1) as [r s2] eqn:Hrun.
  cbn [fst snd] in Hsnd, Hfst. subst r s2.
  assert (shape processed = [new_h; new_w; 3] \/ shape processed = [new_h; new_w]) as Hout.
  { refine (apply_filters_shape filter_config new_h new_w resized s1 processed s1 _ Hrun).
    left. reflexivity. }
  assert (fs.writable processed = true) as Hwritable.
  { unfold fs.writable. destruct Hout as [-> | ->];
      rewrite ?andb_true_iff, ?Z.leb_le; cbn; repeat split; lia. }
  unfold process_image, try_except, mbind, read_should_stop, fs.imread, lift.
  rewrite Hacq, Hstop, Hfile. fold s1. unfold shape_hw. rewrite Hshape, Hsize.
  rewrite (resize_fits image s1 h w new_w new_h Hshape) by (cbn; lia).
  fold resized. rewrite Hrun. fold (output_path self image_path prefix).
  unfold fs.imwrite. cbn [env s1 fs.log_decode]. rewrite Henc, Hwritable. cbn [andb].
  eexists. unfold ret. split; [reflexivity|]. split; [exact Hout|].
  cbn [written files s1 fs.log_decode]. split; [reflexivity|].
  split.
  - intros ->. now rewrite String.eqb_refl.
  - intros -> p. destruct (String.eqb p (output_path self image_path prefix)); reflexivity.
Qed.

Lemma process_image_success_witness :
  let blurred := {| shape := [24; 24; 3];
                    data := GaussianBlur (7, 7) 0
                              (Resize (24, 24) (Imread "in/photo.png")) |} in
  exists s',
    process_image resizer photo half [("blur", on)] "small_" read_only = (Ok true, s') /\
    (shape blurred = [24; 24; 3] \/ shape blurred = [24; 24]) /\
    written s' = written read_only ++ [("out/small_photo.png", blurred)] /\
    (store (env read_only) "out/small_photo.png" blurred = Stored ->
     files s' "out/small_photo.png" = Some (ImageFile (fs.reloaded blurred))) /\
    (store (env read_only) "out/small_photo.png" blurred = Refused ->
     forall p, files s' p = files read_only p).
Proof.
  cbv zeta.
  apply (process_image_success resizer photo half [("blur", on)] "small_" read_only
           (bgr 49 49 (str photo)) _ 49 49 24 24); try reflexivity.
  cbn. lia.
Defined.


(** ** BatchEngine: what a batch does to the state *)

Lemma batch_loop_writes self size filter_config callback total todo :
  forall idx success_count error_files s r s',
    batch_loop self size filter_config callback total idx todo success_count error_files s
      = (r, s') ->
    exists news,
      written s' = written s ++ news /\
      Forall (fun wr => In (fst wr) (map (fun f => output_path self f "") todo)) news /\
      (forall out, r = Ok out -> fst out = (success_count + List.length news)%nat).
Proof.
  induction todo as [|image_path rest IH]; intros idx sc ef s r s' Hrun.
  - cbn in Hrun. injection Hrun as <- <-. exists []. rewrite app_nil_r.
    split; [reflexivity|]. split; [constructor|]. intros out [= <-]. cbn. lia.
  - cbn [batch_loop] in Hrun. unfold mbind in Hrun.
    destruct (process_image_effect self image_path size filter_config "" s)
      as (ok & s1 & Hok & _ & _ & Heffect).
    rewrite Hok in Hrun.
    pose proof (notify_frame callback total (idx + 1)%nat (name image_path) s1) as Hn.
    assert (forall news' : list (string * ndarray),
               Forall (fun wr => In (fst wr) (map (fun f => output_path self f "") rest)) news' ->
               Forall (fun wr => In (fst wr)
                                   (map (fun f => output_path self f "") (image_path :: rest)))
                 news') as Hweaken.
    { intros news' H. eapply Forall_impl; [|exact H]. intros wr Hin. right. exact Hin. }
    destruct ok.
    + destruct Heffect as (processed & Hw1 & _).
      destruct (notify callback (idx + 1)%nat total (name image_path) s1) as [[[]|e] s2];
        cbn [snd] in Hn; subst s2.
      * apply IH in Hrun as (news & Hw & Hall & Hcount).
        exists ((output_path self image_path "", processed) :: news).
        split; [rewrite Hw, Hw1, <- app_assoc; reflexivity|].
        split; [constructor; [left; reflexivity|auto]|].
        intros out Hout. rewrite (Hcount out Hout). cbn [List.length]. lia.
      * injection Hrun as <- <-. exists [(output_path self image_path "", processed)].
        split; [exact Hw1|]. split; [repeat constructor|]. discriminate.
    + destruct Heffect as [Hw1 _].
      destruct (notify callback (idx + 1)%nat total (name image_path) s1) as [[[]|e] s2];
        cbn [snd] in Hn; subst s2.
      * apply IH in Hrun as (news & Hw & Hall & Hcount).
        exists news. split; [rewrite Hw, Hw1; reflexivity|]. split; [auto|exact Hcount].
      * injection Hrun as <- <-. exists []. rewrite app_nil_r.
        split; [exact Hw1|]. split; [constructor|discriminate].
Qed.

(** X13: in a batch that returns, the files written are as many as the successes
    counted, each in the output folder under the name of an input file. *)
Theorem batch_resize_writes_one_file_per_success
    (self : ImageResizer) (size : size_params)
    (filter_config : list (string * filter_params))
    (callback : option progress_callback) (s s' : state)
    (success_count total : nat) (error_files : list string) :
  batch_resize self size filter_config callback s
    = (Ok (success_count, total, error_files), s') ->
  exists news,
    written s' = written s ++ news /\
    List.length news = success_count /\
    Forall (fun wr => exists f, In f (image_files self) /\
                                fst wr = joinpath (output_folder self) (name f)) news.
Proof.
  unfold batch_resize, mbind. rewrite validate_images_spec.
  set (valid := filter (loadable (files s)) (image_files self)).
  set (s1 := add_decoded _ s).
  assert (forall f, In f valid -> In f (image_files self)) as Hsub
    by (intros f Hin; apply filter_In in Hin; tauto).
  destruct valid as [|f0 rest] eqn:Hvalid.
  - intros [= <- _ _ <-]. exists []. cbn. rewrite app_nil_r. auto.
  - destruct (batch_loop self size filter_config callback (List.length (f0 :: rest)) 0
                (f0 :: rest) 0 [] s1) as [[[sc ef]|e] s2] eqn:Hloop; [|discriminate].
    intros [= <- _ _ <-].
    apply batch_loop_writes in Hloop as (news & Hw & Hall & Hcount).
    specialize (Hcount _ eq_refl). cbn [fst] in Hcount.
    exists news. split; [exact Hw|]. split; [lia|].
    eapply Forall_impl; [|exact Hall]. intros wr Hin.
    apply in_map_iff in Hin as (f & Hpath & Hin). exists f. split; [auto|].
    now rewrite <- Hpath.
Qed.

Lemma batch_resize_writes_one_file_per_success_witness :
  exists news,
    written (snd (batch_resize resizer half [("blur", on)] None idle))
      = written idle ++ news /\
    List.length news = 2%nat /\
    Forall (fun wr => exists f, In f (image_files resizer) /\
                                fst wr = joinpath (output_folder resizer) (name f)) news.
Proof.
  apply (batch_resize_writes_one_file_per_success resizer half [("blur", on)] None idle
           (snd (batch_resize resizer half [("blur", on)] None idle))
           2 2 ["notes.txt"; "broken.png"]).
  reflexivity.
Defined.

Lemma batch_loop_raise self size filter_config callback total todo :
  forall idx success_count error_files s e s',
    batch_loop self size filter_config callback total idx todo success_count error_files s
      = (Raise e, s') ->
    exists cb k f,
      callback = Some cb /\ nth_error todo k = Some f /\
      cb (idx + k + 1)%nat total (name f) = Raise e.
Proof.
  induction todo as [|image_path rest IH]; intros idx sc ef s e s' Hrun.
  - discriminate.
  - cbn [batch_loop] in Hrun. unfold mbind in Hrun.
    destruct (process_image_total self image_path size filter_config "" s)
      as (ok & s1 & Hok).
    rewrite Hok in Hrun.
    assert (forall sc' ef',
               match notify callback (idx + 1)%nat total (name image_path) s1 with
               | (Ok _, s2) =>
                   batch_loop self size filter_config callback total (S idx) rest sc' ef' s2
               | (Raise e0, s2) => (Raise e0, s2)
               end = (Raise e, s') ->
               exists cb k f,
                 callback = Some cb /\ nth_error (image_path :: rest) k = Some f /\
                 cb (idx + k + 1)%nat total (name f) = Raise e) as Hstep.
    { intros sc' ef' H. unfold notify in H. destruct callback as [cb|].
      - unfold lift in H. destruct (cb (idx + 1)%nat total (name image_path)) as [[]|e0] eqn:Hcb.
        + apply IH in H as (cb' & k & f & Hcb' & Hnth & Hraise).
          exists cb', (S k), f. split; [assumption|]. split; [exact Hnth|].
          now replace (idx + S k + 1)%nat with (S idx + k + 1)%nat by lia.
        + injection H as -> _. exists cb, 0%nat, image_path.
          split; [reflexivity|]. split; [reflexivity|].
          now replace (idx + 0 + 1)%nat with (idx + 1)%nat by lia.
      - unfold ret in H. apply IH in H as (cb' & _ & _ & Hcb' & _). discriminate. }
    destruct ok; eapply Hstep; exact Hrun.
Qed.

(** X14: no fault of a file leaves the loop of [batch_resize] over the valid
    files: an exception that leaves it was raised by the progress callback,
    called with the position of one of these files, the total and that
    file's name.  Without a callback the loop cannot raise. *)
Theorem batch_loop_raises_only_from_callback
    (self : ImageResizer) (size : size_params)
    (filter_config : list (string * filter_params))
    (callback : option progress_callback) (total idx : nat) (todo : list Path)
    (success_count : nat) (error_files : list string) (s s' : state) (e : exn) :
  batch_loop self size filter_config callback total idx todo success_count error_files s
    = (Raise e, s') ->
  exists cb k f,
    callback = Some cb /\ nth_error todo k = Some f /\
    cb (idx + k + 1)%nat total (name f) = Raise e.
Proof.
  intros Hrun.
  destruct (batch_loop_raise self size filter_config callback total todo idx
              success_count error_files s e s' Hrun) as (cb & k & f & Hcb & Hnth & Hraise).
  exists cb, k, f. split; [exact Hcb|]. split; [exact Hnth|exact Hraise].
Qed.

Lemma batch_loop_raises_only_from_callback_witness :
  let cb : progress_callback :=
    fun completed total file_name =>
      if Nat.eqb completed 2 then Raise CallbackError else Ok tt in
  exists cb' k f,
    Some cb = Some cb' /\ nth_error [photo; scan] k = Some f /\
    cb' (0 + k + 1)%nat 2%nat (name f) = Raise CallbackError.
Proof.
  cbv zeta.
  apply (batch_loop_raises_only_from_callback resizer half [] _ 2 0 [photo; scan] 0 [] idle
           (snd (batch_loop resizer half []
                   (Some (fun completed total file_name =>
                            if Nat.eqb completed 2 then Raise CallbackError else Ok tt))
                   2 0 [photo; scan] 0 [] idle))).
  reflexivity.
Defined.

(** X15: when no input file is loadable the batch returns at once: no success, a
    total of zero and every input name, in input order; the flag is not
    read, nothing is written and the callback is not called. *)
Theorem batch_resize_no_valid_file
    (self : ImageResizer) (size : size_params)
    (filter_config : list (string * filter_params))
    (callback : option progress_callback) (s : state) :
  Forall (fun f => loadable (files s) f = false) (image_files self) ->
  exists s',
    batch_resize self size filter_config callback s
      = (Ok (0%nat, 0%nat, map name (image_files self)), s') /\
    written s' = written s /\ files s' = files s /\
    should_stop s' = should_stop s /\ pending_stop s' = pending_stop s.
Proof.
  intros Hnone. unfold batch_resize, mbind. rewrite validate_images_spec.
  assert (filter (loadable (files s)) (image_files self) = [] /\
          filter (fun f => negb (loadable (files s) f)) (image_files self)
          = image_files self) as [-> ->].
  { induction Hnone as [|f l Hf _ [IH1 IH2]]; [split; reflexivity|].
    cbn. rewrite Hf. cbn. rewrite IH1, IH2. split; reflexivity. }
  eexists. split; [reflexivity|]. cbn. auto.
Qed.

Lemma batch_resize_no_valid_file_witness :
  exists s',
    batch_resize {| image_files := [notes; broken]; output_folder := "out" |}
      half [("blur", on)] None idle
      = (Ok (0%nat, 0%nat, map name [notes; broken]), s') /\
    written s' = written idle /\ files s' = files idle /\
    should_stop s' = should_stop idle /\ pending_stop s' = pending_stop idle.
Proof.
  apply (batch_resize_no_valid_file
           {| image_files := [notes; broken]; output_folder := "out" |}
           half [("blur", on)] None idle).
  repeat constructor.
Defined.

(** ** Cancellation during a batch *)

Lemma batch_loop_flag_set self size filter_config callback total todo :
  forall idx success_count error_files s,
    should_stop s = true ->
    let run := batch_loop self size filter_config callback total idx todo
                 success_count error_files s in
    should_stop (snd run) = true /\
    written (snd run) = written s /\ decoded (snd run) = decoded s /\
    files (snd run) = files s /\
    (quiet callback -> fst run = Ok (success_count, error_files ++ map name todo)).
Proof.
  induction todo as [|image_path rest IH]; intros idx sc ef s Hs; cbv zeta.
  - cbn. rewrite app_nil_r. auto.
  - cbn [batch_loop]. unfold mbind.
    rewrite (process_image_stopped _ _ _ _ _ _ Hs).
    destruct (acquire_frame s) as (Hf & Hd & Hw).
    pose proof (acquire_stopped s Hs) as Hs1.
    pose proof (notify_frame callback total (idx + 1)%nat (name image_path) (acquire s)) as Hn.
    pose proof (notify_quiet callback total (idx + 1)%nat (name image_path) (acquire s)) as Hq.
    destruct (notify callback (idx + 1)%nat total (name image_path) (acquire s))
      as [[[]|e] s2]; cbn [snd] in Hn; subst s2.
    + specialize (IH (S idx) sc (ef ++ [name image_path]) (acquire s) Hs1).
      cbv zeta in IH. destruct IH as (H1 & H2 & H3 & H4 & H5).
      rewrite H2, H3, H4, Hf, Hd, Hw. repeat split; auto.
      intros Hquiet. rewrite (H5 Hquiet), <- app_assoc. reflexivity.
    + cbn. repeat split; auto. intros Hquiet. specialize (Hq Hquiet). discriminate.
Qed.

Lemma batch_loop_app self size filter_config callback total done :
  forall rest idx success_count error_files s,
    batch_loop self size filter_config callback total idx (done ++ rest)
      success_count error_files s
    = match batch_loop self size filter_config callback total idx done
              success_count error_files s with
      | (Ok (sc, ef), s1) =>
          batch_loop self size filter_config callback total (idx + List.length done)
            rest sc ef s1
      | (Raise e, s1) => (Raise e, s1)
      end.
Proof.
  induction done as [|image_path done' IH]; intros rest idx sc ef s.
  - cbn. now rewrite Nat.add_0_r.
  - cbn [app batch_loop List.length]. unfold mbind.
    destruct (process_image self image_path size filter_config "" s) as [[ok|e] s1];
      [|reflexivity].
    destruct ok;
      (destruct (notify callback (idx + 1)%nat total (name image_path) s1) as [[[]|e] s2];
       [rewrite IH; now replace (S idx + List.length done')%nat
                          with (idx + S (List.length done'))%nat by lia
       |reflexivity]).
Qed.

(** X16: cancellation between two files: when the flag is set after the files
    [done], their successes stay counted, and each file of [rest] is named
    failed without being decoded or written. *)
Theorem cancellation_mid_batch
    (self : ImageResizer) (size : size_params)
    (filter_config : list (string * filter_params))
    (callback : option progress_callback) (total idx : nat)
    (done rest : list Path) (success_count sc1 : nat) (error_files ef1 : list string)
    (s s1 : state) :
  batch_loop self size filter_config callback total idx done success_count error_files s
    = (Ok (sc1, ef1), s1) ->
  should_stop s1 = true -> quiet callback ->
  exists s2,
    batch_loop self size filter_config callback total idx (done ++ rest)
      success_count error_files s
    = (Ok (sc1, ef1 ++ map name rest), s2) /\
    written s2 = written s1 /\ decoded s2 = decoded s1.
Proof.
  intros Hdone Hflag Hquiet. rewrite batch_loop_app, Hdone.
  pose proof (batch_loop_flag_set self size filter_config callback total rest
                (idx + List.length done) sc1 ef1 s1 Hflag) as H.
  cbv zeta in H. destruct H as (_ & Hw & Hd & _ & Hout).
  specialize (Hout Hquiet).
  destruct (batch_loop self size filter_config callback total (idx + List.length done)
              rest sc1 ef1 s1) as [r s2].
  cbn [fst snd] in *. subst r. exists s2. auto.
Qed.

(** X17: the flag is never cleared: a batch started with the flag set ends with
    the flag set, so a stopped resizer fails every file of any later batch. *)
Theorem should_stop_is_sticky
    (self : ImageResizer) (size : size_params)
    (filter_config : list (string * filter_params))
    (callback : option progress_callback) (s : state) :
  should_stop s = true ->
  should_stop (snd (batch_resize self size filter_config callback s)) = true.
Proof.
  intros Hs. unfold batch_resize, mbind. rewrite validate_images_spec.
  set (s1 := add_decoded _ s).
  assert (should_stop s1 = true) as Hs1 by exact Hs.
  destruct (filter (loadable (files s)) (image_files self)) as [|f0 rest]; [exact Hs1|].
  pose proof (batch_loop_flag_set self size filter_config callback
                (List.length (f0 :: rest)) (f0 :: rest) 0 0 [] s1 Hs1) as H.
  cbv zeta in H. destruct H as (Hflag & _).
  destruct (batch_loop self size filter_config callback (List.length (f0 :: rest)) 0
              (f0 :: rest) 0 [] s1) as [[[sc ef]|e] s2]; exact Hflag.
Qed.

Lemma should_stop_is_sticky_witness :
  should_stop (snd (batch_resize resizer half [("blur", on)] None
                      (snd (stop_processing idle)))) = true.
Proof.
  apply (should_stop_is_sticky resizer half [("blur", on)] None
           (snd (stop_processing idle))).
  reflexivity.
Defined.

Lemma cancellation_mid_batch_witness :
  let s1 := snd (batch_loop resizer half [("blur", on)] None 2 0 [photo] 0 []
                   (stop_lands_after 1)) in
  exists s2,
    batch_loop resizer half [("blur", on)] None 2 0 ([photo] ++ [scan]) 0 []
      (stop_lands_after 1)
    = (Ok (1%nat, [] ++ map name [scan]), s2) /\
    written s2 = written s1 /\ decoded s2 = decoded s1.
Proof.
  cbv zeta.
  apply (cancellation_mid_batch resizer half [("blur", on)] None 2 0 [photo] [scan]
           0 1 [] [] (stop_lands_after 1)); reflexivity.
Defined.

Lemma apply_filters_stop_due
    (filter_config : list (string * filter_params)) (image : ndarray) (s : state) :
  pending_stop s = Some 0%nat ->
  fst (apply_filters image filter_config s) = Ok image.
Proof.
  revert s. induction filter_config as [|[filter_name params] rest IH]; intros s Hp;
    cbn [apply_filters]; [reflexivity|].
  destruct (get (enabled params) false); [|now apply IH].
  destruct (dict_get filters filter_name) as [apply_func|]; [|now apply IH].
  unfold mbind, read_should_stop.
  assert (should_stop (acquire s) = true) as Hs by (unfold acquire; now rewrite Hp).
  rewrite Hs. cbn [negb]. now apply apply_filters_flag_set.
Qed.

(** X12: a [stop()] that lands while a file is in the filter chain does not fail
    the file: the stages from that checkpoint on are skipped, the buffer is
    handed to [imwrite] as it is and the file is reported a success.  Here
    the stop lands at the first checkpoint of the chain, the host can
    allocate the resized buffer and the output name has a writer: the
    resized buffer is written unfiltered. *)
Theorem process_image_stop_during_filters
    (self : ImageResizer) (image_path : Path) (size : size_params)
    (filter_config : list (string * filter_params)) (prefix : string) (s : state)
    (image : ndarray) (h w new_w new_h : Z) :
  should_stop s = false -> pending_stop s = Some 1%nat ->
  files s (str image_path) = Some (ImageFile image) ->
  shape image = [h; w; 3] ->
  calculate_new_size (w, h) (sp_width size) (sp_height size) (sp_percentage size)
    = Ok (new_w, new_h) ->
  new_w < 2 ^ 31 -> new_h < 2 ^ 31 -> new_h * new_w * 3 <= memory (env s) ->
  fs.has_encoder (encoders (env s)) (output_path self image_path prefix) = true ->
  exists s',
    process_image self image_path size filter_config prefix s = (Ok true, s') /\
    written s' = written s ++
      [(output_path self image_path prefix,
        {| shape := [new_h; new_w; 3]; data := Resize (new_w, new_h) (data image) |})].
Proof.
  intros Hstop Hpending Hfile Hshape Hsize Hw31 Hh31 Hmem Henc.
  destruct (calculate_new_size_clamped _ _ _ _ _ _ Hsize) as [Hw1 Hh1].
  unfold process_image, try_except, mbind, read_should_stop, fs.imread, lift.
  assert (acquire s = set_flag false (Some 0%nat) s) as ->
    by (unfold acquire; now rewrite Hpending, Hstop).
  cbn [should_stop set_flag files]. rewrite Hfile. unfold shape_hw. rewrite Hshape, Hsize.
  set (s1 := fs.log_decode (str image_path) (set_flag false (Some 0%nat) s)).
  rewrite (resize_fits image s1 h w new_w new_h Hshape) by (cbn; lia).
  set (resized := {| shape := [new_h; new_w; 3];
                     data := Resize (new_w, new_h) (data image) |}).
  pose proof (apply_filters_stop_due filter_config resized s1 eq_refl) as Hrun.
  pose proof (apply_filters_frame filter_config resized s1) as (_ & _ & Hwr & _).
  pose proof (apply_filters_env filter_config resized s1) as Henv.
  destruct (apply_filters resized filter_config s1) as [r s2]. cbn [fst snd] in *. subst r.
  fold (output_path self image_path prefix). unfold fs.imwrite.
  rewrite Henv. cbn [env s1 fs.log_decode set_flag]. rewrite Henc.
  assert (fs.writable resized = true) as ->.
  { unfold fs.writable. cbn. rewrite !andb_true_iff, !Z.leb_le. lia. }
  cbn [andb]. eexists. unfold ret. split; [reflexivity|]. cbn. now rewrite Hwr.
Qed.

Lemma process_image_stop_during_filters_witness :
  exists s',
    process_image resizer photo half [("grayscale", on); ("brightness", on)] ""
      (stop_lands_after 1) = (Ok true, s') /\
    written s' = written (stop_lands_after 1) ++
      [(output_path resizer photo "",
        {| shape := [24; 24; 3];
           data := Resize (24, 24) (data (bgr 49 49 (str photo))) |})].
Proof.
  apply (process_image_stop_during_filters resizer photo half
           [("grayscale", on); ("brightness", on)] "" (stop_lands_after 1)
           (bgr 49 49 (str photo)) 49 49 24 24); try reflexivity.
  cbn. lia.
Defined.

(** X18: the validator opens exactly the regular files that carry an allowed
    extension, in input order, and touches nothing else: no write, no change
    of the files, and the lock is not taken. *)
Theorem validate_images_opens_only_candidates (self : ImageResizer) (s : state) :
  let s' := snd (validate_images self s) in
  decoded s' = decoded s ++ map str (filter (candidate (files s)) (image_files self)) /\
  written s' = written s /\ files s' = files s /\
  should_stop s' = should_stop s /\ pending_stop s' = pending_stop s.
Proof.
  cbv zeta. rewrite validate_images_spec. cbn [snd].
  unfold add_decoded. cbn. auto.
Qed.

(** ** The front end's configuration *)

(** X19: the configuration [get_filter_config] builds lists exactly the selected
    filters, every one enabled, in the canonical order (grayscale, blur,
    sharpen, edge detection, brightness, contrast, rotation, flip); it fails
    exactly when the flip selector holds a value that is no key of
    [flip_map]. *)
Theorem get_filter_config_canonical (ui : filter_widgets) :
  (forall config,
      get_filter_config ui = Some config ->
      map fst config = map FilterType_value (filter (selected ui) canonical_order) /\
      Forall (fun entry => enabled (snd entry) = Some true) config) /\
  (get_filter_config ui = None <-> dict_get flip_map (flip_var ui) = None).
Proof.
  unfold get_filter_config, filter_vars, canonical_order.
  cbn [fold_left filter selected].
  destruct (negb (flip_var ui =? "none")%string) eqn:Hflip;
    destruct (dict_get flip_map (flip_var ui)) as [d|] eqn:Hd;
    try (apply negb_false_iff, String.eqb_eq in Hflip; rewrite Hflip in Hd; discriminate);
    destruct (grayscale_var ui), (blur_var ui), (sharpen_var ui), (edge_detect_var ui),
      (negb (brightness_var ui =? 0)), (float_ne (contrast_var ui) float_one),
      (negb (rotate_var ui =? 0));
    cbn.
  all: split.
  all: try (intros config Hc;
            first [discriminate
                  |injection Hc as <-; split;
                   [reflexivity|repeat (apply Forall_cons; [reflexivity|]); apply Forall_nil]]).
  all: split; intros H; solve [discriminate|reflexivity].
Qed.

Lemma get_filter_config_canonical_witness :
  (forall config,
      get_filter_config sample_widgets = Some config ->
      map fst config
      = map FilterType_value (filter (selected sample_widgets) canonical_order) /\
      Forall (fun entry => enabled (snd entry) = Some true) config) /\
  (get_filter_config sample_widgets = None
   <-> dict_get flip_map (flip_var sample_widgets) = None).
Proof. exact (get_filter_config_canonical sample_widgets). Defined.
